(** * schema-bob: the schema builders and their [validate], embedded in Rocq

    The development follows [serialization.ts] (and its compiled form):
    the JavaScript values the validators inspect, the built-ins they call
    ([typeof], property reads and writes, [Array.prototype.includes],
    [indexOf], [splice], [Object.assign]), the class hierarchy under
    [TypeImpl], and the builder functions.  Exceptions are modelled by a
    completion type: a call either returns a value or throws. *)

From Stdlib Require Import List String Ascii Bool ZArith Lia.
From Stdlib Require Import Floats.SpecFloat.
From Stdlib Require Import Strings.Byte.
From Stdlib Require Import Numbers.DecimalString.
Import ListNotations.
Local Open Scope string_scope.
Local Open Scope list_scope.

(** ** JavaScript values *)

(** A [number] is an IEEE 754 binary64 value.  The Standard Library's
    [spec_float] is the inductive specification of such values (it has a
    single NaN, as JavaScript code observes). *)
Definition float64 : Type := spec_float.

Definition NaN : float64 := S754_nan.

(** The values that reach [validate]: what callers hand over and what
    [msgpackr.unpack] produces.  [VObj props] is a plain object: its
    prototype is [Object.prototype] and [props] are its own enumerable
    properties, read by first match on the key, in the order of insertion.
    [VFunction] is a function object, which is what the inherited method
    names read as.  [VObjProto proto props] is an object with another
    prototype: an object that an assignment to [__proto__] re-parented, or
    a prototype object seen through a read. *)
Unset Elimination Schemes.
Inductive value : Type :=
| VUndefined
| VNull
| VBool (b : bool)
| VNum (n : float64)
| VStr (s : string)
| VU8 (bytes : list byte)
| VObj (props : list (string * value))
| VArr (items : list value)
| VFunction
| VObjProto (proto : value) (props : list (string * value)).
Set Elimination Schemes.

(** What a call can throw. *)
Inductive error : Type :=
| InvalidTypeError (name expectedType : string) (found : value)
    (* [new InvalidTypeError(name, expectedType, value)] *)
| LiteralError (name : string) (literalValues : list value) (found : value)
    (* the plain [Error] "Expected name to be one of values [...]" *)
| MissingDiscriminatorError (subschema union discriminator : string)
    (* the plain [Error] thrown by the constructor of [UnionRecordType] *)
| TypeError
    (* thrown by the runtime itself: a property read on [null], a call of
       something that is not a function, [Object.keys(undefined)] *)
| DecodeError.
    (* thrown by [msgpackr.unpack] *)

Inductive completion (A : Type) : Type :=
| Return (a : A)
| Throw (e : error).
Arguments Return {A} a.
Arguments Throw {A} e.

Definition bind {A B : Type} (c : completion A) (k : A -> completion B)
  : completion B :=
  match c with
  | Return a => k a
  | Throw e => Throw e
  end.

Notation "x <- c ;; k" := (bind c (fun x => k))
  (at level 61, c at next level, right associativity).

(** [try { c; return true } catch (e) { return false }] *)
Definition returns {A : Type} (c : completion A) : bool :=
  match c with
  | Return _ => true
  | Throw _ => false
  end.

(** ** The built-ins the validators rely on *)

Module Js.

(** [typeof v] *)
Definition typeof (v : value) : string :=
  match v with
  | VUndefined => "undefined"
  | VNull => "object"
  | VBool _ => "boolean"
  | VNum _ => "number"
  | VStr _ => "string"
  | VU8 _ => "object"
  | VObj _ => "object"
  | VArr _ => "object"
  | VFunction => "function"
  | VObjProto _ _ => "object"
  end.

(** The number whose value is the natural number [n] (exact below 2^53). *)
Definition number_of_nat (n : nat) : float64 :=
  binary_normalize 53 1024 (Z.of_nat n) 0 false.

(** The canonical numeric string of an array index. *)
Definition index_key (i : nat) : string :=
  NilEmpty.string_of_uint (Nat.to_uint i).

(** The element whose index key is [key], counting from [i]. *)
Fixpoint element_at {A : Type} (items : list A) (i : nat) (key : string)
  : option A :=
  match items with
  | [] => None
  | x :: rest =>
      if String.eqb key (index_key i) then Some x
      else element_at rest (S i) key
  end.

Fixpoint lookup {A : Type} (key : string) (props : list (string * A))
  : option A :=
  match props with
  | [] => None
  | (k, v) :: rest => if String.eqb key k then Some v else lookup key rest
  end.

Fixpoint chars (s : string) : list value :=
  match s with
  | EmptyString => []
  | String c rest => VStr (String c EmptyString) :: chars rest
  end.

Definition byte_value (b : byte) : value :=
  VNum (number_of_nat (Byte.to_nat b)).

(** The properties of [Object.prototype]: methods, and the accessor
    [__proto__]. *)
Definition object_prototype_names : list string :=
  ["constructor"; "hasOwnProperty"; "isPrototypeOf"; "propertyIsEnumerable";
   "toLocaleString"; "toString"; "valueOf"; "__defineGetter__";
   "__defineSetter__"; "__lookupGetter__"; "__lookupSetter__"].

(** The methods of [Array.prototype] beyond those names. *)
Definition array_prototype_names : list string :=
  ["at"; "concat"; "copyWithin"; "entries"; "every"; "fill"; "filter";
   "find"; "findIndex"; "findLast"; "findLastIndex"; "flat"; "flatMap";
   "forEach"; "includes"; "indexOf"; "join"; "keys"; "lastIndexOf"; "map";
   "pop"; "push"; "reduce"; "reduceRight"; "reverse"; "shift"; "slice";
   "some"; "sort"; "splice"; "toReversed"; "toSorted"; "toSpliced";
   "unshift"; "values"; "with"].

(** The methods of a typed array's prototypes beyond those names. *)
Definition typed_array_prototype_names : list string :=
  ["at"; "copyWithin"; "entries"; "every"; "fill"; "filter"; "find";
   "findIndex"; "findLast"; "findLastIndex"; "forEach"; "includes";
   "indexOf"; "join"; "keys"; "lastIndexOf"; "map"; "reduce";
   "reduceRight"; "reverse"; "set"; "slice"; "some"; "sort"; "subarray";
   "toReversed"; "toSorted"; "values"; "with"].

Definition methods (names : list string) : list (string * value) :=
  map (fun n => (n, VFunction)) names.

(** [Object.prototype] as a value to read from: its prototype is [null]. *)
Definition ObjectPrototype : value :=
  VObjProto VNull (("__proto__", VNull) :: methods object_prototype_names).

(** What a read finds on [Object.prototype] when the object has no own
    property of that name. *)
Definition inherited_from_object (key : string) : value :=
  if String.eqb key "__proto__" then ObjectPrototype
  else if existsb (String.eqb key) object_prototype_names then VFunction
  else VUndefined.

(** The prototype objects of arrays and of [Uint8Array]s, and the
    [ArrayBuffer] behind a [Uint8Array], as far as a read at one level
    shows them: [Array.prototype] is itself an empty array. *)
Definition ArrayPrototype : value := VArr [].
Definition Uint8ArrayPrototype : value :=
  VObjProto ObjectPrototype (methods typed_array_prototype_names).
Definition array_buffer : value := VObjProto ObjectPrototype [].

Definition inherited_from_array (key : string) : value :=
  if String.eqb key "__proto__" then ArrayPrototype
  else if existsb (String.eqb key) array_prototype_names then VFunction
  else inherited_from_object key.

Definition inherited_from_u8 (bytes : list byte) (key : string) : value :=
  if String.eqb key "length" || String.eqb key "byteLength"
  then VNum (number_of_nat (List.length bytes))
  else if String.eqb key "byteOffset" then VNum (number_of_nat 0)
  else if String.eqb key "BYTES_PER_ELEMENT" then VNum (number_of_nat 1)
  else if String.eqb key "buffer" then array_buffer
  else if String.eqb key "__proto__" then Uint8ArrayPrototype
  else if existsb (String.eqb key) typed_array_prototype_names
  then VFunction
  else inherited_from_object key.

Definition own_or (o : option value) (inherited : value) : value :=
  match o with
  | Some v => v
  | None => inherited
  end.

(** [Object.keys(o)] of a field table. *)
Definition keys {A : Type} (props : list (string * A)) : list string :=
  map fst props.

Definition owns (props : list (string * value)) (key : string) : bool :=
  existsb (String.eqb key) (keys props).

(** Whether the chain of this prototype leads to the accessor [__proto__]
    of [Object.prototype], with no own property of that name on the
    way. *)
Fixpoint reaches_setter (proto : value) : bool :=
  match proto with
  | VUndefined | VNull | VBool _ | VNum _ | VStr _ => false
  | VObj props => negb (owns props "__proto__")
  | VU8 _ | VArr _ | VFunction => true
  | VObjProto p props =>
      if owns props "__proto__" then false else reaches_setter p
  end.

(** The accessors of a typed array's prototype: getters without a setter,
    which throw on a receiver that is not a typed array. *)
Definition typed_array_accessors : list string :=
  ["length"; "byteLength"; "byteOffset"; "buffer"].

(** [u[key]]: the own property when there is one, what the prototype
    chain holds otherwise.  On [null] and [undefined] the runtime throws a
    [TypeError].  On a re-parented object the getter of [__proto__] gives
    the prototype, and a getter inherited from a typed array throws, the
    object not being one.  (Reads on booleans, numbers, strings and
    functions are never made by the validators: the guards come first.) *)
Fixpoint get (u : value) (key : string) {struct u} : completion value :=
  match u with
  | VUndefined | VNull => Throw TypeError
  | VBool _ | VNum _ | VFunction => Return (inherited_from_object key)
  | VStr s =>
      if String.eqb key "length"
      then Return (VNum (number_of_nat (String.length s)))
      else Return (own_or (element_at (chars s) 0 key)
                          (inherited_from_object key))
  | VU8 bytes =>
      Return (own_or (element_at (map byte_value bytes) 0 key)
                     (inherited_from_u8 bytes key))
  | VObj props => Return (own_or (lookup key props) (inherited_from_object key))
  | VArr items =>
      if String.eqb key "length"
      then Return (VNum (number_of_nat (List.length items)))
      else Return (own_or (element_at items 0 key) (inherited_from_array key))
  | VObjProto proto props =>
      match lookup key props with
      | Some v => Return v
      | None =>
          if String.eqb key "__proto__" && reaches_setter proto
          then Return proto
          else
            match proto with
            | VUndefined | VNull | VBool _ | VNum _ | VStr _ =>
                Return VUndefined
            | VU8 _ =>
                if existsb (String.eqb key) typed_array_accessors
                then Throw TypeError
                else get proto key
            | _ => get proto key
            end
      end
  end.

(** The definition of an own data property: an existing property keeps
    its place, a new one goes last. *)
Fixpoint define (props : list (string * value)) (key : string) (v : value)
  : list (string * value) :=
  match props with
  | [] => [(key, v)]
  | (k, w) :: rest =>
      if String.eqb key k then (k, v) :: rest
      else (k, w) :: define rest key v
  end.

(** The values the setter of [__proto__] installs: objects and [null]. *)
Definition is_prototype (v : value) : bool :=
  match v with
  | VNull | VU8 _ | VObj _ | VArr _ | VFunction | VObjProto _ _ => true
  | VUndefined | VBool _ | VNum _ | VStr _ => false
  end.

(** Whether a property named [key] found through this prototype lets an
    assignment on the object go through: the accessors of a typed array
    have no setter, and its [BYTES_PER_ELEMENT], like the [length] and
    [name] of a function, is not writable. *)
Fixpoint writable_through (proto : value) (key : string) : bool :=
  match proto with
  | VU8 _ =>
      negb (existsb (String.eqb key)
                    ("BYTES_PER_ELEMENT" :: typed_array_accessors))
  | VFunction => negb (existsb (String.eqb key) ["length"; "name"])
  | VObjProto p props => owns props key || writable_through p key
  | _ => true
  end.

(** Whether the assignment [result[key] = v] succeeds on an object the
    code built; in strict code, as here, the runtime throws a [TypeError]
    when it does not.  On [{}] every assignment succeeds. *)
Definition assignable (result : value) (key : string) : bool :=
  match result with
  | VObjProto proto props => owns props key || writable_through proto key
  | _ => true
  end.

(** What [result[key] = v] makes of an object the code built, when it
    succeeds.  The key [__proto__] goes to the setter of
    [Object.prototype], which adds no own property: it re-parents the
    object when [v] is an object or [null], and does nothing otherwise. *)
Definition set (result : value) (key : string) (v : value) : value :=
  match result with
  | VObj props =>
      if String.eqb key "__proto__" && negb (owns props key)
      then if is_prototype v then VObjProto v props else result
      else VObj (define props key v)
  | VObjProto proto props =>
      if String.eqb key "__proto__" && negb (owns props key)
         && reaches_setter proto
      then if is_prototype v then VObjProto v props else result
      else VObjProto proto (define props key v)
  | _ => result
  end.

(** The objects the code builds: [{}] and what assignments make of it. *)
Definition is_built (v : value) : bool :=
  match v with
  | VObj _ | VObjProto _ _ => true
  | _ => false
  end.

(** What holds of every object the code builds: each own property once,
    none of them named [__proto__], and a prototype through which the
    setter of [__proto__] is found. *)
Definition well_built (v : value) : Prop :=
  match v with
  | VObj props => NoDup (keys props) /\ ~ In "__proto__" (keys props)
  | VObjProto proto props =>
      NoDup (keys props) /\ ~ In "__proto__" (keys props)
      /\ reaches_setter proto = true
  | _ => True
  end.

(** The entries counted from index [i] of an indexed value. *)
Fixpoint indexed (items : list value) (i : nat) : list (string * value) :=
  match items with
  | [] => []
  | x :: rest => (index_key i, x) :: indexed rest (S i)
  end.

(** The own enumerable properties of a value, as [Object.assign] and the
    spread syntax read them from a source. *)
Definition own_enumerable (v : value) : list (string * value) :=
  match v with
  | VObj props | VObjProto _ props => props
  | VArr items => indexed items 0
  | VStr s => indexed (chars s) 0
  | VU8 bytes => indexed (map byte_value bytes) 0
  | VUndefined | VNull | VBool _ | VNum _ | VFunction => []
  end.

(** The definition of every property of [source], in order. *)
Definition define_all (target source : list (string * value))
  : list (string * value) :=
  fold_left (fun acc kv => define acc (fst kv) (snd kv)) source target.

(** [Object.assign(target, source)]: every own enumerable property of the
    source is assigned to the target.  The code calls it on [{}] and on
    results of [validate], which have no own property [__proto__]: the
    target stays a plain object, on which every assignment succeeds. *)
Definition assign (target : value) (source : value) : value :=
  fold_left (fun acc kv => set acc (fst kv) (snd kv))
            (own_enumerable source) target.

(** [Object.assign(Object.assign({}, a), b)], the compiled form of the
    spread [{ ...a, ...b }]. *)
Definition spread (a b : value) : value :=
  assign (assign (VObj []) a) b.

(** SameValueZero on numbers, the comparison of
    [Array.prototype.includes]: IEEE equality, except that NaN is the
    same as NaN. *)
Definition same_value_zero (x y : float64) : bool :=
  match x, y with
  | S754_nan, S754_nan => true
  | _, _ => SFeqb x y
  end.

(** Strict equality [===] on numbers: IEEE equality. *)
Definition strict_equals (x y : float64) : bool := SFeqb x y.

(** [literalValues.includes(n)] *)
Definition includes_number (l : list float64) (n : float64) : bool :=
  existsb (same_value_zero n) l.

(** [literalValues.includes(s)] *)
Definition includes_string (l : list string) (s : string) : bool :=
  existsb (String.eqb s) l.

(** [new Set(ignoredKeys).has(key)] *)
Definition has (ignoredKeys : list string) (key : string) : bool :=
  existsb (String.eqb key) ignoredKeys.

(** [l.indexOf(x)], with [-1] when [x] does not occur. *)
Fixpoint indexOf_from (l : list string) (x : string) (i : Z) : Z :=
  match l with
  | [] => (-1)%Z
  | y :: rest => if String.eqb x y then i else indexOf_from rest x (i + 1)%Z
  end.

Definition indexOf (l : list string) (x : string) : Z := indexOf_from l x 0.

(** [l.splice(start, 1)], as it leaves [l]: a negative [start] counts
    from the end. *)
Definition splice1 (l : list string) (start : Z) : list string :=
  let len := Z.of_nat (List.length l) in
  let actualStart :=
    if (start <? 0)%Z then Z.max (len + start) 0 else Z.min start len in
  firstn (Z.to_nat actualStart) l ++ skipn (Z.to_nat actualStart + 1) l.

(** [l.find(pred)] fused with the use of what it finds: [found] runs on
    the first element for which [pred] returns true, [notFound] stands
    for the code after an [undefined] answer; an exception of [pred]
    ends the whole call. *)
Definition find_then {A B : Type} (pred : A -> completion bool)
    (found : A -> completion B) (notFound : completion B)
  : list A -> completion B :=
  fix go (l : list A) : completion B :=
    match l with
    | [] => notFound
    | x :: rest =>
        b <- pred x ;;
        if b then found x else go rest
    end.

(** [l.find(pred)] on its own. *)
Fixpoint find {A : Type} (pred : A -> completion bool) (l : list A)
  : completion (option A) :=
  match l with
  | [] => Return None
  | x :: rest =>
      b <- pred x ;;
      if b then Return (Some x) else find pred rest
  end.

End Js.

Arguments Js.set : simpl never.
Arguments Js.assign : simpl never.
Arguments Js.spread : simpl never.

(** ** The class hierarchy *)

(** One constructor per class extending [TypeImpl]; the arguments are the
    constructor parameters kept as fields.  A field table ([schema]) is
    listed in the order of [Object.entries]. *)
Unset Elimination Schemes.
Inductive TypeImpl : Type :=
| BoolType (name : string) (literalValue : option bool)
| StringType (name : string) (literalValues : list string)
| NumberType (name : string) (literalValues : list float64)
| Uint8ArrayType (name : string)
| OptionalType (base : TypeImpl)
| RecordType (name : string) (schema : list (string * TypeImpl))
| ExtendsType (name : string) (baseType : TypeImpl)
              (schema : list (string * TypeImpl))
| UnionRecordType (name : string) (discriminator : string)
                  (schemas : list TypeImpl)
| ListType (name : string) (itemSchema : TypeImpl).
Set Elimination Schemes.

Definition name_of (t : TypeImpl) : string :=
  match t with
  | BoolType name _ | StringType name _ | NumberType name _
  | Uint8ArrayType name | RecordType name _ | ExtendsType name _ _
  | UnionRecordType name _ _ | ListType name _ => name
  | OptionalType _ => EmptyString
  end.

(** [s.schema]: only [RecordType] and [ExtendsType] have the field. *)
Definition schema_of (t : TypeImpl) : option (list (string * TypeImpl)) :=
  match t with
  | RecordType _ schema | ExtendsType _ _ schema => Some schema
  | _ => None
  end.

(** [Object.keys(s.schema)], which throws when [s.schema] is undefined. *)
Definition schema_keys (t : TypeImpl) : completion (list string) :=
  match schema_of t with
  | Some schema => Return (Js.keys schema)
  | None => Throw TypeError
  end.

Definition bool_toString (b : bool) : string :=
  if b then "true" else "false".

Section RecordLoop.
Context {A : Type}.
Variable validate_with : A -> value -> completion value.
Variable u : value.
Variable ignoredKeySet : list string.

(** The loop of [RecordType.validate] over [Object.entries(this.schema)],
    from the entries still to visit and the [result] built so far. *)
Fixpoint record_loop (entries : list (string * A))
    (result : value) : completion value :=
  match entries with
  | [] => Return result
  | (key, validator) :: rest =>
      if Js.has ignoredKeySet key then record_loop rest result
      else
        propValue <- Js.get u key ;;
        validatedValue <- validate_with validator propValue ;;
        if Js.assignable result key
        then record_loop rest (Js.set result key validatedValue)
        else Throw TypeError
  end.
End RecordLoop.

(** The body of [RecordType.validate], over the validator of the fields. *)
Definition record_validate {A : Type}
    (validate_with : A -> value -> completion value)
    (name : string) (schema : list (string * A))
    (u : value) (ignoredKeys : list string) : completion value :=
  if negb (String.eqb (Js.typeof u) "object")
  then Throw (InvalidTypeError name "object" u)
  else record_loop validate_with u ignoredKeys schema (VObj []).

Section ListLoop.
Context {A : Type}.
Variable validate_item : value -> completion value.

(** The loop of [ListType.validate]: [result.push(...)] per item. *)
Fixpoint list_loop (items result : list value) : completion value :=
  match items with
  | [] => Return (VArr result)
  | i :: rest =>
      validated <- validate_item i ;;
      list_loop rest (result ++ [validated])
  end.
End ListLoop.

(** [validate(u, ignoredKeys)] of every class.  A class whose [validate]
    takes one parameter leaves [ignoredKeys] unused; a caller that passes
    none passes [[]], which [new Set(undefined)] also yields. *)
Fixpoint validate (t : TypeImpl) (u : value) (ignoredKeys : list string)
    {struct t} : completion value :=
  match t with
  | BoolType name literalValue =>
      match u with
      | VBool b =>
          match literalValue with
          | Some l =>
              if negb (Bool.eqb b l)
              then Throw (InvalidTypeError name (bool_toString l) u)
              else Return u
          | None => Return u
          end
      | _ => Throw (InvalidTypeError name "boolean" u)
      end
  | StringType name literalValues =>
      match u with
      | VStr s =>
          if (0 <? List.length literalValues)%nat
          then
            if negb (Js.includes_string literalValues s)
            then Throw (LiteralError name (map VStr literalValues) u)
            else Return u
          else Return u
      | _ => Throw (InvalidTypeError name "string" u)
      end
  | NumberType name literalValues =>
      match u with
      | VNum n =>
          if (0 <? List.length literalValues)%nat
          then
            if negb (Js.includes_number literalValues n)
            then Throw (LiteralError name (map VNum literalValues) u)
            else Return u
          else Return u
      | _ => Throw (InvalidTypeError name "number" u)
      end
  | Uint8ArrayType name =>
      match u with
      | VU8 _ => Return u
      | _ => Throw (InvalidTypeError name "u8array" u)
      end
  | OptionalType base =>
      match u with
      | VUndefined | VNull => Return VUndefined
      | _ => validate base u []
      end
  | RecordType name schema =>
      record_validate
        (fun validator propValue => validate validator propValue [])
        name schema u ignoredKeys
  | ExtendsType name baseType schema =>
      (* the parameter [ignoredKeys] is not declared by this class *)
      let ignoredKeys' := Js.keys schema in
      baseResult <- validate baseType u ignoredKeys' ;;
      (* [this.subtype.validate(u)], [subtype] being
         [new RecordType(name, schema)] *)
      schemaResult <-
        record_validate
          (fun validator propValue => validate validator propValue [])
          name schema u [] ;;
      Return (Js.spread baseResult schemaResult)
  | UnionRecordType name discriminator schemas =>
      (* [Object.keys(s.schema)] stands before the [try]; only what
         [s.validate] throws is caught *)
      Js.find_then
        (fun s =>
           ignoredKeys0 <- schema_keys s ;;
           let ignoredKeys' :=
             Js.splice1 ignoredKeys0 (Js.indexOf ignoredKeys0 discriminator) in
           Return (returns (validate s u ignoredKeys')))
        (fun schema => validate schema u [])
        (Throw (InvalidTypeError name "union" u))
        schemas
  | ListType name itemSchema =>
      match u with
      | VArr items =>
          list_loop (fun i => validate itemSchema i []) items []
      | _ => Throw (InvalidTypeError name "array" u)
      end
  end.

(** The callback handed to [this.schemas.find] by [UnionRecordType.validate]:
    the probe of one subschema. *)
Definition probe (discriminator : string) (u : value) (s : TypeImpl)
  : completion bool :=
  ignoredKeys0 <- schema_keys s ;;
  let ignoredKeys :=
    Js.splice1 ignoredKeys0 (Js.indexOf ignoredKeys0 discriminator) in
  Return (returns (validate s u ignoredKeys)).

(** [hasKey(key)] of the record-like classes; on any other class the call
    [s.hasKey(key)] is a call of [undefined]. *)
Fixpoint hasKey (t : TypeImpl) (key : string) {struct t} : completion bool :=
  match t with
  | RecordType _ schema => Return (Js.includes_string (Js.keys schema) key)
  | ExtendsType _ baseType schema =>
      if Js.includes_string (Js.keys schema) key then Return true
      else hasKey baseType key
  | UnionRecordType _ _ schemas =>
      (fix every (l : list TypeImpl) : completion bool :=
         match l with
         | [] => Return true
         | s :: rest =>
             b <- hasKey s key ;;
             if b then every rest else Return false
         end) schemas
  | _ => Throw TypeError
  end.

(** [validateProperty(key, value)] of the record-like classes.  A record
    and an extension look [key] up in their own [schema] and call
    [validate] on what they find ([undefined] has no [validate]); a union
    asks every subschema in turn and returns the last answer. *)
Fixpoint validateProperty (t : TypeImpl) (key : string) (v : value)
    {struct t} : completion value :=
  match t with
  | RecordType _ schema | ExtendsType _ _ schema =>
      match Js.lookup key schema with
      | Some validator => validate validator v []
      | None => Throw TypeError
      end
  | UnionRecordType _ _ schemas =>
      (fix for_of (l : list TypeImpl) (result : value) : completion value :=
         match l with
         | [] => Return result
         | subschema :: rest =>
             r <- validateProperty subschema key v ;;
             for_of rest r
         end) schemas VUndefined
  | _ => Throw TypeError
  end.

(** ** The builders *)

Module Bob.

Definition bool (name : string) (literalValue : option Datatypes.bool)
  : TypeImpl := BoolType name literalValue.

Definition str (name : string) (literalValues : Datatypes.list string)
  : TypeImpl := StringType name literalValues.

Definition num (name : string) (literalValues : Datatypes.list float64)
  : TypeImpl := NumberType name literalValues.

Definition u8array (name : string) : TypeImpl := Uint8ArrayType name.

Definition optional (base : TypeImpl) : TypeImpl := OptionalType base.

Definition rec (name : string) (schema : Datatypes.list (string * TypeImpl))
  : TypeImpl := RecordType name schema.

Definition extend (name : string) (base : TypeImpl)
    (schema : Datatypes.list (string * TypeImpl)) : TypeImpl :=
  ExtendsType name base schema.

(** The loop at the end of the constructor of [UnionRecordType]. *)
Fixpoint check_discriminator (name discriminator : string)
    (schemas : Datatypes.list TypeImpl) : completion unit :=
  match schemas with
  | [] => Return tt
  | subschema :: rest =>
      b <- hasKey subschema discriminator ;;
      if negb b
      then Throw (MissingDiscriminatorError (name_of subschema) name
                                            discriminator)
      else check_discriminator name discriminator rest
  end.

(** [union(name, discriminator, schemas)]: the constructor can throw,
    and then there is no schema object. *)
Definition union (name discriminator : string)
    (schemas : Datatypes.list TypeImpl) : completion TypeImpl :=
  _ <- check_discriminator name discriminator schemas ;;
  Return (UnionRecordType name discriminator schemas).

Definition list (name : string) (itemSchema : TypeImpl) : TypeImpl :=
  ListType name itemSchema.

End Bob.

(** ** [serialize] and [deserialize] *)

(** The codec [msgpackr]: [pack] and [unpack] over the buffers it
    produces.  The codec is a collaborator of the library; a development
    about the library takes it as given. *)
Record Codec : Type := {
  wire : Type;
  pack : value -> wire;
  unpack : wire -> completion value
}.

(** The codec gives back what was packed. *)
Definition lossless (c : Codec) : Prop :=
  forall v : value, unpack c (pack c v) = Return v.

Section TypeImplMethods.
Variable codec : Codec.

Definition serialize (t : TypeImpl) (v : value) : completion (wire codec) :=
  validated <- validate t v [] ;;
  Return (pack codec validated).

Definition deserialize (t : TypeImpl) (u : wire codec) : completion value :=
  unpacked <- unpack codec u ;;
  validated <- validate t unpacked [] ;;
  Return validated.

(** [rt] of the test suite: [t.deserialize(t.serialize(val))]. *)
Definition rt (t : TypeImpl) (val : value) : completion value :=
  buffer <- serialize t val ;;
  deserialize t buffer.
End TypeImplMethods.

(** A codec that keeps the packed value itself; it is lossless. *)
Definition structural_codec : Codec :=
  {| wire := value; pack := fun v => v; unpack := fun w => Return w |}.

(** ** The failures of the specification, as the code throws them *)

Definition TypeMismatch (name kind : string) (v : value) : error :=
  InvalidTypeError name kind v.
Definition NotAnObject (name : string) (v : value) : error :=
  InvalidTypeError name "object" v.
Definition NotAnArray (name : string) (v : value) : error :=
  InvalidTypeError name "array" v.
Definition NoMatchingBranch (name : string) (v : value) : error :=
  InvalidTypeError name "union" v.
Definition LiteralMismatch (name : string) (literals : list value)
    (v : value) : error :=
  LiteralError name literals v.
Definition MissingDiscriminator (subschema union discriminator : string)
  : error :=
  MissingDiscriminatorError subschema union discriminator.

(** ** Schemas the builders produce *)

(** [rec], [extend] and [union] produce the record-like classes. *)
Definition recordish (t : TypeImpl) : bool :=
  match t with
  | RecordType _ _ | ExtendsType _ _ _ | UnionRecordType _ _ _ => true
  | _ => false
  end.

(** The classes with a field table of their own ([schema]). *)
Definition has_schema (t : TypeImpl) : bool :=
  match schema_of t with
  | Some _ => true
  | None => false
  end.

Definition scalar (t : TypeImpl) : bool :=
  match t with
  | BoolType _ _ | StringType _ _ | NumberType _ _ | Uint8ArrayType _ => true
  | _ => false
  end.

Fixpoint distinct (l : list string) : bool :=
  match l with
  | [] => true
  | x :: rest => negb (existsb (String.eqb x) rest) && distinct rest
  end.

Definition returns_true (c : completion bool) : bool :=
  match c with
  | Return true => true
  | _ => false
  end.

(** A schema as the builders construct it under their declared types: a
    field table is an object literal, so its keys are distinct; the base of
    an extension is record-like; the subschemas of a union are record-like
    and went through the discriminator check of the constructor. *)
Fixpoint well_formed (t : TypeImpl) : bool :=
  match t with
  | BoolType _ _ | StringType _ _ | NumberType _ _ | Uint8ArrayType _ => true
  | OptionalType base => well_formed base
  | RecordType _ schema =>
      distinct (Js.keys schema)
      && forallb (fun kv => well_formed (snd kv)) schema
  | ExtendsType _ baseType schema =>
      recordish baseType && well_formed baseType
      && distinct (Js.keys schema)
      && forallb (fun kv => well_formed (snd kv)) schema
  | UnionRecordType _ discriminator schemas =>
      forallb (fun s => recordish s && well_formed s
                        && returns_true (hasKey s discriminator)) schemas
  | ListType _ itemSchema => well_formed itemSchema
  end.

(** No field table of the schema uses the key [__proto__]. *)
Fixpoint ordinary_keys (t : TypeImpl) : bool :=
  match t with
  | BoolType _ _ | StringType _ _ | NumberType _ _ | Uint8ArrayType _ => true
  | OptionalType base => ordinary_keys base
  | RecordType _ schema =>
      negb (Js.has (Js.keys schema) "__proto__")
      && forallb (fun kv => ordinary_keys (snd kv)) schema
  | ExtendsType _ baseType schema =>
      ordinary_keys baseType
      && negb (Js.has (Js.keys schema) "__proto__")
      && forallb (fun kv => ordinary_keys (snd kv)) schema
  | UnionRecordType _ _ schemas => forallb ordinary_keys schemas
  | ListType _ itemSchema => ordinary_keys itemSchema
  end.

(** The field of a record that a union discriminates on is a scalar. *)
Definition scalar_field (key : string) (t : TypeImpl) : bool :=
  match t with
  | RecordType _ schema =>
      match Js.lookup key schema with
      | Some f => scalar f
      | None => false
      end
  | _ => false
  end.

Definition is_record (t : TypeImpl) : bool :=
  match t with
  | RecordType _ _ => true
  | _ => false
  end.

(** The schemas on which every [ignoredKeys] argument is honoured and a
    union only ever looks at scalars to choose: scalars, optionals, lists
    and records of such schemas, extensions of a record, unions of records
    with a scalar discriminator field. *)
Fixpoint plain (t : TypeImpl) : bool :=
  match t with
  | BoolType _ _ | StringType _ _ | NumberType _ _ | Uint8ArrayType _ => true
  | OptionalType base => plain base
  | RecordType _ schema =>
      distinct (Js.keys schema) && forallb (fun kv => plain (snd kv)) schema
  | ExtendsType _ baseType schema =>
      is_record baseType && plain baseType
      && distinct (Js.keys schema)
      && forallb (fun kv => plain (snd kv)) schema
  | UnionRecordType _ discriminator schemas =>
      forallb (fun s => plain s && scalar_field discriminator s) schemas
  | ListType _ itemSchema => plain itemSchema
  end.

(** ** Induction over schemas *)

Section TypeImplInduction.
Variable P : TypeImpl -> Prop.
Hypothesis HBool : forall name literalValue, P (BoolType name literalValue).
Hypothesis HString : forall name literalValues,
    P (StringType name literalValues).
Hypothesis HNumber : forall name literalValues,
    P (NumberType name literalValues).
Hypothesis HU8 : forall name, P (Uint8ArrayType name).
Hypothesis HOptional : forall base, P base -> P (OptionalType base).
Hypothesis HRecord : forall name schema,
    Forall (fun kv => P (snd kv)) schema -> P (RecordType name schema).
Hypothesis HExtends : forall name baseType schema,
    P baseType -> Forall (fun kv => P (snd kv)) schema ->
    P (ExtendsType name baseType schema).
Hypothesis HUnion : forall name discriminator schemas,
    Forall P schemas -> P (UnionRecordType name discriminator schemas).
Hypothesis HList : forall name itemSchema,
    P itemSchema -> P (ListType name itemSchema).

Fixpoint TypeImpl_ind (t : TypeImpl) : P t :=
  let fields :=
    fix fields (l : list (string * TypeImpl))
      : Forall (fun kv => P (snd kv)) l :=
      match l with
      | [] => Forall_nil _
      | kv :: rest => Forall_cons kv (TypeImpl_ind (snd kv)) (fields rest)
      end in
  match t with
  | BoolType name literalValue => HBool name literalValue
  | StringType name literalValues => HString name literalValues
  | NumberType name literalValues => HNumber name literalValues
  | Uint8ArrayType name => HU8 name
  | OptionalType base => HOptional base (TypeImpl_ind base)
  | RecordType name schema => HRecord name schema (fields schema)
  | ExtendsType name baseType schema =>
      HExtends name baseType schema (TypeImpl_ind baseType) (fields schema)
  | UnionRecordType name discriminator schemas =>
      HUnion name discriminator schemas
        ((fix branches (l : list TypeImpl) : Forall P l :=
            match l with
            | [] => Forall_nil _
            | s :: rest => Forall_cons s (TypeImpl_ind s) (branches rest)
            end) schemas)
  | ListType name itemSchema => HList name itemSchema (TypeImpl_ind itemSchema)
  end.
End TypeImplInduction.

(** ** Views of the code used by the statements *)

Section RecordCollect.
Context {A : Type}.
Variable validate_with : A -> value -> completion value.
Variable u : value.
Variable ignoredKeySet : list string.

(** The properties [record_loop] adds to [result], in the order it adds
    them: the loop without its accumulator. *)
Fixpoint record_collect (entries : list (string * A))
  : completion (list (string * value)) :=
  match entries with
  | [] => Return []
  | (key, validator) :: rest =>
      if Js.has ignoredKeySet key then record_collect rest
      else
        propValue <- Js.get u key ;;
        validatedValue <- validate_with validator propValue ;;
        tail <- record_collect rest ;;
        Return ((key, validatedValue) :: tail)
  end.
End RecordCollect.

(** The names of a subschema's own field table. *)
Definition own_field_names (s : TypeImpl) : list string :=
  match schema_of s with
  | Some schema => Js.keys schema
  | None => []
  end.

(** A list of names without the name [x]. *)
Definition minus (names : list string) (x : string) : list string :=
  filter (fun k => negb (String.eqb k x)) names.

(** The probe of a branch as the specification words it: the branch's
    [validate] on the value, ignoring the branch's own field names minus
    the discriminator; it succeeds iff that call does not fail. *)
Definition probe_succeeds (discriminator : string) (v : value)
    (s : TypeImpl) : bool :=
  returns (validate s v (minus (own_field_names s) discriminator)).

(** The field table a record-like schema answers to on the value [u]: the
    table of a record; the base fields plus the own fields of an extension;
    the fields of the branch a union selects. *)
Fixpoint field_table (t : TypeImpl) (u : value) {struct t} : list string :=
  match t with
  | RecordType _ schema => Js.keys schema
  | ExtendsType _ baseType schema => field_table baseType u ++ Js.keys schema
  | UnionRecordType _ discriminator schemas =>
      (fix selected (l : list TypeImpl) : list string :=
         match l with
         | [] => []
         | s :: rest =>
             if returns_true (probe discriminator u s)
             then field_table s u
             else selected rest
         end) schemas
  | _ => []
  end.

(** The fields a validated value is to have: for a record, those of its
    table that are not ignored. *)
Definition expected_fields (t : TypeImpl) (u : value)
    (ignoredKeys : list string) : list string :=
  match t with
  | RecordType _ _ =>
      filter (fun k => negb (Js.has ignoredKeys k)) (field_table t u)
  | _ => field_table t u
  end.

(** The keys a schema names in the field tables that apply to the value
    it is given: those of a record, of an extension and its base, of every
    branch of a union, and of what an optional wraps. *)
Fixpoint mentioned_keys (t : TypeImpl) : list string :=
  match t with
  | OptionalType base => mentioned_keys base
  | RecordType _ schema => Js.keys schema
  | ExtendsType _ baseType schema => mentioned_keys baseType ++ Js.keys schema
  | UnionRecordType _ _ schemas => flat_map mentioned_keys schemas
  | _ => []
  end.

(** Two values hold the same data: they are the same value, or plain
    objects with the same keys holding the same data whatever the order
    of the keys, or arrays holding the same data item by item. *)
Unset Elimination Schemes.
Inductive same_data : value -> value -> Prop :=
| same_value v : same_data v v
| same_object p1 p2 :
    (forall k x, Js.lookup k p1 = Some x ->
                 exists y, Js.lookup k p2 = Some y /\ same_data x y) ->
    (forall k y, Js.lookup k p2 = Some y ->
                 exists x, Js.lookup k p1 = Some x /\ same_data x y) ->
    same_data (VObj p1) (VObj p2)
| same_array l1 l2 :
    Forall2 same_data l1 l2 -> same_data (VArr l1) (VArr l2).
Set Elimination Schemes.

(** SameValueZero as a relation: both are NaN, or they are equal numbers. *)
Definition SameValueZero (x y : float64) : Prop :=
  (x = NaN /\ y = NaN) \/ SFeqb x y = true.

(** [validate] gives back its own results unchanged. *)
Definition idempotent (t : TypeImpl) : Prop :=
  forall (u : value) (ignoredKeys : list string) (r : value),
    validate t u ignoredKeys = Return r ->
    validate t r ignoredKeys = Return r.

(** ** Schemas and values of the test suite and of the specification *)

Module Examples.

Definition five : value := VNum (Js.number_of_nat 5).

(** [rec('user', { id: str('id'), username: str('username') })] *)
Definition user : TypeImpl :=
  Bob.rec "user" [("id", Bob.str "id" []); ("username", Bob.str "username" [])].

Definition user_with_email : value :=
  VObj [("id", VStr "1"); ("username", VStr "a"); ("email", VStr "x@y.com")].

Definition user_pruned : value :=
  VObj [("id", VStr "1"); ("username", VStr "a")].

(** The union of the first-match example: branches tagged ['hello'] and
    ['greetings'] on the discriminator [kind]. *)
Definition hello : TypeImpl :=
  Bob.rec "hello" [("kind", Bob.str "kind" ["hello"]);
                   ("foo", Bob.bool "foo" None)].
Definition greetings : TypeImpl :=
  Bob.rec "greetings" [("kind", Bob.str "kind" ["greetings"]);
                       ("baz", Bob.bool "baz" None)].
Definition someUnion : TypeImpl :=
  UnionRecordType "someUnion" "kind" [hello; greetings].
Definition greeting : value :=
  VObj [("kind", VStr "greetings"); ("baz", VBool true)].

(** [extend('E', rec('B', { p: str('p') }), { p: num('p') })] *)
Definition B : TypeImpl := Bob.rec "B" [("p", Bob.str "p" [])].
Definition E : TypeImpl := Bob.extend "E" B [("p", Bob.num "p" [])].
Definition p_is_5 : value := VObj [("p", five)].

(** A union whose only branch is a union. *)
Definition tagged : TypeImpl := Bob.rec "tagged" [("k", Bob.str "k" [])].
Definition inner : TypeImpl := UnionRecordType "inner" "k" [tagged].
Definition outer : TypeImpl := UnionRecordType "outer" "k" [inner].
Definition tagged_a : value := VObj [("k", VStr "a")].


(** [rec('r', { a: str('a') })] and [rec('empty', {})] *)
Definition r_a : TypeImpl := Bob.rec "r" [("a", Bob.str "a" [])].
Definition empty : TypeImpl := Bob.rec "empty" [].

(** [num('x', NaN)] *)
Definition x_nan : TypeImpl := Bob.num "x" [NaN].

(** [optional(bool('someBool'))] *)
Definition someOptionalBool : TypeImpl :=
  Bob.optional (Bob.bool "someBool" None).

(** The README's [base] and [extended]:
    [extend('extended', rec('base', { foo: num('foo') }), { bar: num('bar') })] *)
Definition base : TypeImpl := Bob.rec "base" [("foo", Bob.num "foo" [])].
Definition extended : TypeImpl :=
  Bob.extend "extended" base [("bar", Bob.num "bar" [])].
Definition one : value := VNum (Js.number_of_nat 1).
Definition two : value := VNum (Js.number_of_nat 2).
Definition foo_bar : value := VObj [("foo", one); ("bar", two)].

(** [rec('r', { ['__proto__']: str('s') })], and the object
    [JSON.parse('{"__proto__": "x"}')] with its own property. *)
Definition proto_record : TypeImpl :=
  Bob.rec "r" [("__proto__", Bob.str "s" [])].
Definition proto_x : value := VObj [("__proto__", VStr "x")].

(** [rec('r', { ['__proto__']: u8array('p'), length: num('n') })], and an
    object with both properties of its own. *)
Definition proto_bytes : TypeImpl :=
  Bob.rec "r" [("__proto__", Bob.u8array "p"); ("length", Bob.num "n" [])].
Definition bytes_and_length : value :=
  VObj [("__proto__", VU8 [Byte.x01; Byte.x02]); ("length", one)].


End Examples.

(** * Facts about the built-ins *)

Section JsFacts.

Lemma has_In (l : list string) (k : string) : Js.has l k = true <-> In k l.
Proof.
  unfold Js.has. rewrite existsb_exists. split.
  - intros [x [Hin Heq]]. apply String.eqb_eq in Heq. now subst.
  - intros Hin. exists k. split; [assumption | apply String.eqb_refl].
Qed.

Lemma has_false (l : list string) (k : string) :
  Js.has l k = false <-> ~ In k l.
Proof.
  rewrite <- has_In. destruct (Js.has l k); split; congruence.
Qed.

Lemma includes_string_In (l : list string) (k : string) :
  Js.includes_string l k = true <-> In k l.
Proof. apply has_In. Qed.

Lemma distinct_NoDup (l : list string) : distinct l = true <-> NoDup l.
Proof.
  induction l as [| x l IH]; simpl.
  - split; [constructor | reflexivity].
  - rewrite andb_true_iff, negb_true_iff, NoDup_cons_iff, IH.
    change (existsb (String.eqb x) l) with (Js.has l x).
    now rewrite has_false.
Qed.

Lemma lookup_None {A : Type} (k : string) (props : list (string * A)) :
  Js.lookup k props = None <-> ~ In k (Js.keys props).
Proof.
  induction props as [| [k' v] props IH]; simpl.
  - tauto.
  - destruct (String.eqb_spec k k') as [-> | Hne].
    + split; [discriminate | intros H; exfalso; apply H; now left].
    + rewrite IH. split; [intros H [Heq | Hin]; congruence | tauto].
Qed.

Lemma lookup_Some_In {A : Type} (k : string) (v : A) props :
  Js.lookup k props = Some v -> In (k, v) props.
Proof.
  induction props as [| [k' w] props IH]; simpl; [discriminate |].
  destruct (String.eqb_spec k k') as [-> | Hne].
  - intros [= ->]. now left.
  - intros H. right. now apply IH.
Qed.

Lemma In_lookup {A : Type} (k : string) (v : A) props :
  NoDup (Js.keys props) -> In (k, v) props -> Js.lookup k props = Some v.
Proof.
  induction props as [| [k' w] props IH]; simpl; [tauto |].
  intros Hnd [Heq | Hin].
  - injection Heq as -> ->. now rewrite String.eqb_refl.
  - apply NoDup_cons_iff in Hnd as [Hfresh Hnd].
    destruct (String.eqb_spec k k') as [-> | Hne].
    + exfalso. apply Hfresh. apply (in_map fst) in Hin. exact Hin.
    + now apply IH.
Qed.

Lemma define_fresh props k v :
  ~ In k (Js.keys props) -> Js.define props k v = props ++ [(k, v)].
Proof.
  induction props as [| [k' w] props IH]; simpl; [reflexivity |].
  intros Hfresh. destruct (String.eqb_spec k k') as [-> | Hne].
  - exfalso. apply Hfresh. now left.
  - rewrite IH; [reflexivity | tauto].
Qed.

Lemma keys_define props k v :
  forall k', In k' (Js.keys (Js.define props k v))
             <-> k' = k \/ In k' (Js.keys props).
Proof.
  induction props as [| [k0 w] props IH]; simpl; intros k'.
  - intuition congruence.
  - destruct (String.eqb_spec k k0) as [-> | Hne]; simpl.
    + intuition congruence.
    + rewrite IH. intuition congruence.
Qed.

Lemma NoDup_define props k v :
  NoDup (Js.keys props) -> NoDup (Js.keys (Js.define props k v)).
Proof.
  induction props as [| [k0 w] props IH]; simpl; intros Hnd.
  - constructor; [tauto | constructor].
  - apply NoDup_cons_iff in Hnd as [Hfresh Hnd].
    destruct (String.eqb_spec k k0) as [-> | Hne]; simpl.
    + now constructor.
    + constructor; [| now apply IH].
      rewrite keys_define. intros [Heq | Hin]; congruence.
Qed.

Lemma lookup_define_same props k v : Js.lookup k (Js.define props k v) = Some v.
Proof.
  induction props as [| [k0 w] props IH]; simpl.
  - now rewrite String.eqb_refl.
  - destruct (String.eqb_spec k k0) as [-> | Hne]; simpl.
    + now rewrite String.eqb_refl.
    + destruct (String.eqb_spec k k0); [congruence | exact IH].
Qed.

Lemma lookup_define_other props k v k' :
  k' <> k -> Js.lookup k' (Js.define props k v) = Js.lookup k' props.
Proof.
  intros Hne. induction props as [| [k0 w] props IH]; simpl.
  - destruct (String.eqb_spec k' k); [congruence | reflexivity].
  - destruct (String.eqb_spec k k0) as [-> | Hne0]; simpl.
    + destruct (String.eqb_spec k' k0); [congruence | reflexivity].
    + now rewrite IH.
Qed.

(** Properties defined one after the other. *)
Lemma keys_define_all target source :
  forall k, In k (Js.keys (Js.define_all target source))
            <-> In k (Js.keys target) \/ In k (Js.keys source).
Proof.
  unfold Js.define_all. revert target.
  induction source as [| [k0 w] source IH]; simpl; intros target k.
  - tauto.
  - rewrite IH, keys_define. intuition congruence.
Qed.

Lemma NoDup_define_all target source :
  NoDup (Js.keys target) -> NoDup (Js.keys (Js.define_all target source)).
Proof.
  unfold Js.define_all. revert target.
  induction source as [| [k0 w] source IH]; simpl; intros target Hnd;
    [assumption |].
  apply IH. now apply NoDup_define.
Qed.

Lemma lookup_define_all_other target source k :
  ~ In k (Js.keys source) ->
  Js.lookup k (Js.define_all target source) = Js.lookup k target.
Proof.
  unfold Js.define_all. revert target.
  induction source as [| [k0 w] source IH]; simpl; intros target Hfresh;
    [reflexivity |].
  rewrite IH by tauto. apply lookup_define_other. intros ->. tauto.
Qed.

Lemma lookup_define_all_own target source k v :
  NoDup (Js.keys source) -> Js.lookup k source = Some v ->
  Js.lookup k (Js.define_all target source) = Some v.
Proof.
  unfold Js.define_all. revert target.
  induction source as [| [k0 w] source IH]; simpl; intros target Hnd Hlk;
    [discriminate |].
  apply NoDup_cons_iff in Hnd as [Hfresh Hnd].
  destruct (String.eqb_spec k k0) as [-> | Hne].
  - injection Hlk as ->.
    change (fold_left _ source ?t) with (Js.define_all t source).
    rewrite lookup_define_all_other by assumption. apply lookup_define_same.
  - now apply IH.
Qed.

(** An assignment at a key other than [__proto__] defines the property. *)
Lemma set_ordinary props k v :
  k <> "__proto__" -> Js.set (VObj props) k v = VObj (Js.define props k v).
Proof.
  intros Hk. unfold Js.set.
  destruct (String.eqb_spec k "__proto__"); [contradiction | reflexivity].
Qed.

(** [Object.assign] between plain objects whose keys are all ordinary. *)
Lemma assign_ordinary target source :
  ~ In "__proto__" (Js.keys source) ->
  Js.assign (VObj target) (VObj source)
  = VObj (Js.define_all target source).
Proof.
  unfold Js.assign, Js.define_all. cbn [Js.own_enumerable]. revert target.
  induction source as [| [k0 w] source IH]; intros target Hk;
    [reflexivity |].
  cbn [fold_left fst snd]. simpl in Hk.
  rewrite set_ordinary by (intros ->; tauto). apply IH. tauto.
Qed.

End JsFacts.

(** * Facts about the loop of [RecordType.validate] *)

Section RecordFacts.
Context {A : Type}.
Variable V : A -> value -> completion value.

(** With distinct keys every assignment [result[key] = ...] adds a new
    property, so the loop is its accumulator followed by what it collects. *)
Lemma record_loop_collect u K (entries : list (string * A)) :
  NoDup (Js.keys entries) -> ~ In "__proto__" (Js.keys entries) ->
  forall acc,
    (forall k, In k (Js.keys entries) -> ~ In k (Js.keys acc)) ->
    record_loop V u K entries (VObj acc) =
      (vs <- record_collect V u K entries ;; Return (VObj (acc ++ vs))).
Proof.
  induction entries as [| [key validator] rest IH]; simpl;
    intros Hnd Hord acc Hfresh.
  - now rewrite app_nil_r.
  - apply NoDup_cons_iff in Hnd as [Hkey Hnd].
    destruct (Js.has K key).
    + apply IH; [assumption | tauto | intros k Hk; apply Hfresh; now right].
    + destruct (Js.get u key) as [propValue | e]; simpl; [| reflexivity].
      destruct (V validator propValue) as [v | e]; simpl; [| reflexivity].
      rewrite set_ordinary by (intros ->; tauto).
      rewrite define_fresh by (apply Hfresh; now left).
      rewrite IH; [| assumption | tauto |].
      * destruct (record_collect V u K rest) as [vs | e]; simpl;
          [| reflexivity].
        now rewrite <- app_assoc.
      * intros k Hk Hin. unfold Js.keys in Hin.
        rewrite map_app in Hin. apply in_app_or in Hin as [Hin | Hin].
        -- apply (Hfresh k); [now right | exact Hin].
        -- simpl in Hin. destruct Hin as [<- | []]. contradiction.
Qed.

Lemma record_validate_collect name (schema : list (string * A)) u K :
  NoDup (Js.keys schema) -> ~ In "__proto__" (Js.keys schema) ->
  record_validate V name schema u K =
    if negb (String.eqb (Js.typeof u) "object")
    then Throw (InvalidTypeError name "object" u)
    else vs <- record_collect V u K schema ;; Return (VObj vs).
Proof.
  intros Hnd Hord. unfold record_validate.
  destruct (negb (String.eqb (Js.typeof u) "object")); [reflexivity |].
  rewrite record_loop_collect by (simpl; auto). reflexivity.
Qed.

Lemma record_collect_keys u K (entries : list (string * A)) :
  forall vs,
    record_collect V u K entries = Return vs ->
    Js.keys vs = filter (fun k => negb (Js.has K k)) (Js.keys entries).
Proof.
  induction entries as [| [key validator] rest IH]; simpl; intros vs H.
  - now injection H as <-.
  - destruct (Js.has K key); simpl; [now apply IH |].
    destruct (Js.get u key) as [x | e]; simpl in H; [| discriminate].
    destruct (V validator x) as [v | e]; simpl in H; [| discriminate].
    destruct (record_collect V u K rest) as [tail | e]; simpl in H;
      [| discriminate].
    injection H as <-. simpl. f_equal. now apply IH.
Qed.

Lemma record_collect_NoDup u K (entries : list (string * A)) vs :
  NoDup (Js.keys entries) ->
  record_collect V u K entries = Return vs -> NoDup (Js.keys vs).
Proof.
  intros Hnd H. rewrite (record_collect_keys _ _ _ _ H).
  now apply NoDup_filter.
Qed.

(** What the loop collects for a field it does not skip. *)
Lemma record_collect_In u K (entries : list (string * A)) :
  forall vs key validator,
    record_collect V u K entries = Return vs ->
    In (key, validator) entries -> Js.has K key = false ->
    exists x v, Js.get u key = Return x /\ V validator x = Return v
                /\ In (key, v) vs.
Proof.
  induction entries as [| [k0 f0] rest IH]; simpl; intros vs key validator H Hin Hk;
    [contradiction |].
  destruct (Js.has K k0) eqn:Hk0.
  - destruct Hin as [Heq | Hin]; [injection Heq as -> ->; congruence |].
    eapply IH; eassumption.
  - destruct (Js.get u k0) as [x | e] eqn:Hget; simpl in H; [| discriminate].
    destruct (V f0 x) as [v | e] eqn:Hv; simpl in H; [| discriminate].
    destruct (record_collect V u K rest) as [tail | e] eqn:Htail; simpl in H;
      [| discriminate].
    injection H as <-. destruct Hin as [Heq | Hin].
    + injection Heq as <- <-. exists x, v. simpl. auto.
    + destruct (IH tail key validator eq_refl Hin Hk) as (x' & v' & ? & ? & ?).
      exists x', v'. simpl. auto.
Qed.

(** The loop reads its input only at the keys it does not skip. *)
Lemma record_collect_ext u1 u2 K (entries : list (string * A)) :
  (forall k, In k (Js.keys entries) -> Js.has K k = false ->
             Js.get u1 k = Js.get u2 k) ->
  record_collect V u1 K entries = record_collect V u2 K entries.
Proof.
  induction entries as [| [key validator] rest IH]; simpl; intros Hagree;
    [reflexivity |].
  destruct (Js.has K key) eqn:Hk.
  - apply IH. intros k Hin. apply Hagree. now right.
  - rewrite (Hagree key) by auto.
    rewrite IH; [reflexivity |]. intros k Hin. apply Hagree. now right.
Qed.

Lemma record_validate_ext name (schema : list (string * A)) u1 u2 K :
  Js.typeof u1 = Js.typeof u2 ->
  (forall k, In k (Js.keys schema) -> Js.has K k = false ->
             Js.get u1 k = Js.get u2 k) ->
  returns (record_validate V name schema u1 K)
  = returns (record_validate V name schema u2 K)
  /\ (Js.typeof u1 = "object" ->
      record_validate V name schema u1 K = record_validate V name schema u2 K).
Proof.
  intros Hty Hagree. unfold record_validate. rewrite <- Hty.
  assert (Hloop : forall entries acc,
             (forall k, In k (Js.keys entries) -> Js.has K k = false ->
                        Js.get u1 k = Js.get u2 k) ->
             record_loop V u1 K entries acc = record_loop V u2 K entries acc).
  { induction entries as [| [key validator] rest IH]; simpl; intros acc Hag;
      [reflexivity |].
    destruct (Js.has K key) eqn:Hk.
    - apply IH. intros k Hin. apply Hag. now right.
    - rewrite (Hag key) by auto.
      destruct (Js.get u2 key) as [x | e]; simpl; [| reflexivity].
      destruct (V validator x) as [v | e]; simpl; [| reflexivity].
      destruct (Js.assignable acc key); [| reflexivity].
      apply IH. intros k Hin. apply Hag. now right. }
  rewrite (Hloop schema (VObj []) Hagree).
  split.
  - destruct (negb (String.eqb (Js.typeof u1) "object")); reflexivity.
  - intros ->. reflexivity.
Qed.

(** Where every field validator gives back its own results unchanged, the
    loop run on an object holding its results collects them again. *)
Lemma record_collect_again u K (entries : list (string * A)) :
  Forall (fun kv => forall x v, V (snd kv) x = Return v ->
                                V (snd kv) v = Return v) entries ->
  forall vs full,
    record_collect V u K entries = Return vs ->
    (forall k v, In (k, v) vs -> Js.lookup k full = Some v) ->
    record_collect V (VObj full) K entries = Return vs.
Proof.
  induction 1 as [| [key validator] rest Hhead _ IH]; simpl;
    intros vs full H Hfull; [assumption |].
  destruct (Js.has K key); [now apply IH |].
  destruct (Js.get u key) as [x | e]; simpl in H; [| discriminate].
  destruct (V validator x) as [v | e] eqn:Hv; simpl in H; [| discriminate].
  destruct (record_collect V u K rest) as [tail | e] eqn:Htail; simpl in H;
    [| discriminate].
  injection H as <-. simpl in Hhead.
  rewrite (Hfull key v) by now left. simpl.
  rewrite (Hhead x v Hv). simpl.
  rewrite (IH tail full eq_refl); [reflexivity |].
  intros k w Hin. apply Hfull. now right.
Qed.

Lemma record_validate_again name (schema : list (string * A)) u K r :
  NoDup (Js.keys schema) -> ~ In "__proto__" (Js.keys schema) ->
  Forall (fun kv => forall x v, V (snd kv) x = Return v ->
                                V (snd kv) v = Return v) schema ->
  record_validate V name schema u K = Return r ->
  record_validate V name schema r K = Return r.
Proof.
  intros Hnd Hord Hfields. rewrite !record_validate_collect by assumption.
  destruct (negb (String.eqb (Js.typeof u) "object")); [discriminate |].
  destruct (record_collect V u K schema) as [vs | e] eqn:Hvs; simpl;
    [| discriminate].
  intros [= <-]. simpl.
  rewrite (record_collect_again u K schema Hfields vs vs Hvs); [reflexivity |].
  intros k v Hin. apply In_lookup; [| assumption].
  eapply record_collect_NoDup; eassumption.
Qed.

End RecordFacts.

(** * Facts about [find], [indexOf] and [splice] *)

Section ArrayFacts.

Lemma find_then_find {A B : Type} (pred : A -> completion bool)
    (found : A -> completion B) (notFound : completion B) (l : list A) :
  Js.find_then pred found notFound l =
    (o <- Js.find pred l ;;
     match o with
     | Some x => found x
     | None => notFound
     end).
Proof.
  induction l as [| x rest IH]; simpl; [reflexivity |].
  destruct (pred x) as [[|] | e]; simpl; auto.
Qed.

Lemma find_then_first {A B : Type} (pred : A -> completion bool)
    (found : A -> completion B) (notFound : completion B) pre s post :
  (forall p, In p pre -> pred p = Return false) ->
  pred s = Return true ->
  Js.find_then pred found notFound (pre ++ s :: post) = found s.
Proof.
  induction pre as [| p pre IH]; simpl; intros Hpre Hs.
  - now rewrite Hs.
  - rewrite (Hpre p) by now left. simpl. apply IH; auto.
Qed.

Lemma find_then_none {A B : Type} (pred : A -> completion bool)
    (found : A -> completion B) (notFound : completion B) l :
  (forall p, In p l -> pred p = Return false) ->
  Js.find_then pred found notFound l = notFound.
Proof.
  induction l as [| p l IH]; simpl; intros Hl; [reflexivity |].
  rewrite (Hl p) by now left. simpl. apply IH; auto.
Qed.

Lemma find_then_Return {A B : Type} (pred : A -> completion bool)
    (found : A -> completion B) (notFound : completion B) l r :
  Js.find_then pred found notFound l = Return r ->
  (exists pre s post,
      l = pre ++ s :: post
      /\ (forall p, In p pre -> pred p = Return false)
      /\ pred s = Return true /\ found s = Return r)
  \/ ((forall p, In p l -> pred p = Return false) /\ notFound = Return r).
Proof.
  induction l as [| x l IH]; simpl; intros H.
  - right. split; [intros p [] | assumption].
  - destruct (pred x) as [[|] | e] eqn:Hx; simpl in H; [| | discriminate].
    + left. exists [], x, l. repeat split; auto. intros p [].
    + destruct (IH H) as [(pre & s & post & -> & Hpre & Hs & Hf) | [Hall Hnf]].
      * left. exists (x :: pre), s, post. repeat split; auto.
        intros p [<- | Hin]; auto.
      * right. split; [| assumption]. intros p [<- | Hin]; auto.
Qed.

Lemma minus_fresh l x : ~ In x l -> minus l x = l.
Proof.
  induction l as [| y l IH]; simpl; intros Hfresh; [reflexivity |].
  destruct (String.eqb_spec y x) as [-> | Hne]; simpl.
  - exfalso. apply Hfresh. now left.
  - rewrite IH; [reflexivity | tauto].
Qed.

Lemma has_minus l x k :
  Js.has (minus l x) k = false -> In k l -> k = x.
Proof.
  intros Hhas Hin. apply has_false in Hhas.
  destruct (String.eqb_spec k x) as [-> | Hne]; [reflexivity |].
  exfalso. apply Hhas. unfold minus. apply filter_In. split; [assumption |].
  apply negb_true_iff. now apply String.eqb_neq.
Qed.

Lemma indexOf_from_minus l x :
  NoDup l -> In x l ->
  forall i, exists p,
    (p < List.length l)%nat
    /\ Js.indexOf_from l x i = (i + Z.of_nat p)%Z
    /\ firstn p l ++ skipn (p + 1) l = minus l x.
Proof.
  induction l as [| y l IH]; simpl; intros Hnd Hin i; [contradiction |].
  apply NoDup_cons_iff in Hnd as [Hfresh Hnd].
  destruct (String.eqb_spec x y) as [-> | Hne].
  - exists 0%nat. repeat split; [lia | lia |]. simpl.
    rewrite String.eqb_refl. simpl. symmetry. now apply minus_fresh.
  - destruct Hin as [-> | Hin]; [congruence |].
    destruct (IH Hnd Hin (i + 1)%Z) as (p & Hlt & Hidx & Hcut).
    exists (S p). repeat split; [lia | lia |]. simpl.
    destruct (String.eqb_spec y x) as [-> | _]; [congruence |]. simpl.
    now rewrite Hcut.
Qed.

(** On a list without repetition, removing one element at the index of a
    member leaves the list without that member. *)
Lemma splice_indexOf l x :
  NoDup l -> In x l -> Js.splice1 l (Js.indexOf l x) = minus l x.
Proof.
  intros Hnd Hin. unfold Js.indexOf, Js.splice1.
  destruct (indexOf_from_minus l x Hnd Hin 0) as (p & Hlt & -> & Hcut).
  simpl. destruct (Z.ltb_spec (Z.of_nat p) 0) as [Hneg | _]; [lia |].
  rewrite Z.min_l by lia. now rewrite Nat2Z.id.
Qed.

End ArrayFacts.

(** * Facts about [validate] *)

Section ValidateFacts.

Lemma validate_union name discriminator schemas u K :
  validate (UnionRecordType name discriminator schemas) u K =
    Js.find_then (probe discriminator u) (fun schema => validate schema u [])
                 (Throw (NoMatchingBranch name u)) schemas.
Proof. reflexivity. Qed.

Lemma validate_record name schema u K :
  validate (RecordType name schema) u K =
    record_validate (fun validator propValue => validate validator propValue [])
                    name schema u K.
Proof. reflexivity. Qed.

Lemma validate_extends name baseType schema u K :
  validate (ExtendsType name baseType schema) u K =
    (baseResult <- validate baseType u (Js.keys schema) ;;
     schemaResult <- validate (RecordType name schema) u [] ;;
     Return (Js.spread baseResult schemaResult)).
Proof. reflexivity. Qed.

(** The probe of the code is the probe of the specification on a record
    that has the discriminator and on an extension. *)
Lemma probe_record name schema d u :
  NoDup (Js.keys schema) -> In d (Js.keys schema) ->
  probe d u (RecordType name schema)
  = Return (probe_succeeds d u (RecordType name schema)).
Proof.
  intros Hnd Hin. unfold probe, probe_succeeds, schema_keys, own_field_names.
  simpl. now rewrite splice_indexOf.
Qed.

Lemma probe_extends name baseType schema d u :
  probe d u (ExtendsType name baseType schema)
  = Return (probe_succeeds d u (ExtendsType name baseType schema)).
Proof. reflexivity. Qed.

Lemma probe_branch d s u :
  well_formed s = true -> has_schema s = true ->
  hasKey s d = Return true ->
  probe d u s = Return (probe_succeeds d u s).
Proof.
  destruct s; try discriminate; intros Hwf _ Hkey.
  - simpl in Hwf, Hkey. apply andb_true_iff in Hwf as [Hd _].
    apply probe_record; [now apply distinct_NoDup |].
    injection Hkey as Hkey. now apply includes_string_In.
  - apply probe_extends.
Qed.

Lemma well_formed_union name d schemas :
  well_formed (UnionRecordType name d schemas) = true ->
  forall s, In s schemas ->
            recordish s = true /\ well_formed s = true
            /\ hasKey s d = Return true.
Proof.
  simpl. rewrite forallb_forall. intros H s Hin.
  specialize (H s Hin). apply andb_true_iff in H as [H Hk].
  apply andb_true_iff in H as [Hr Hw]. repeat split; auto.
  destruct (hasKey s d) as [[|] | e]; simpl in Hk; congruence.
Qed.

(** A scalar validator returns its argument. *)
Lemma scalar_returns_input t x K v :
  scalar t = true -> validate t x K = Return v -> v = x.
Proof.
  destruct t; try discriminate; intros _; simpl.
  - destruct x; try discriminate. destruct literalValue as [l |].
    + destruct (negb (Bool.eqb b l)); [discriminate | now intros [= <-]].
    + now intros [= <-].
  - destruct x; try discriminate.
    destruct (0 <? List.length literalValues)%nat;
      [destruct (negb (Js.includes_string literalValues s)) |];
      try discriminate; now intros [= <-].
  - destruct x; try discriminate.
    destruct (0 <? List.length literalValues)%nat;
      [destruct (negb (Js.includes_number literalValues n)) |];
      try discriminate; now intros [= <-].
  - destruct x; try discriminate. now intros [= <-].
Qed.

End ValidateFacts.

(** * The test suite, run on the model *)

Section TestSuite.

(** 'fails to serialize a bool of the wrong literal type' *)
Example literalTrue_rejects_false :
  validate (Bob.bool "literalTrue" (Some true)) (VBool false) []
  = Throw (InvalidTypeError "literalTrue" "true" (VBool false)).
Proof. reflexivity. Qed.

(** 'fails to serialize a string of the wrong literal type' *)
Example literalHelloWorld_rejects_invalid :
  validate (Bob.str "literalHelloWorld" ["hello"; "world"]) (VStr "world") []
  = Return (VStr "world")
  /\ validate (Bob.str "literalHelloWorld" ["hello"; "world"])
              (VStr "invalid") []
     = Throw (LiteralError "literalHelloWorld" [VStr "hello"; VStr "world"]
                           (VStr "invalid")).
Proof. split; reflexivity. Qed.

(** 'can handle undefined values for an optional' *)
Example someOptionalBool_absent :
  validate Examples.someOptionalBool VUndefined [] = Return VUndefined
  /\ validate Examples.someOptionalBool VNull [] = Return VUndefined
  /\ validate Examples.someOptionalBool (VBool true) [] = Return (VBool true).
Proof. repeat split; reflexivity. Qed.

(** 'avoids serializing properties not present in the schema': the
    subrecord keeps [prop] only, and the full record then misses
    [prop2]. *)
Example someSubRec_prunes :
  validate (Bob.rec "someSubRec" [("prop", Bob.str "prop" [])])
           (VObj [("prop", VStr "hello world");
                  ("prop2", VStr "this should disappear");
                  ("prop3", VStr "begone demons")]) []
  = Return (VObj [("prop", VStr "hello world")])
  /\ validate (Bob.rec "someRec" [("prop", Bob.str "prop" []);
                                  ("prop2", Bob.str "prop2" []);
                                  ("prop3", Bob.str "prop3" [])])
              (VObj [("prop", VStr "hello world")]) []
     = Throw (InvalidTypeError "prop2" "string" VUndefined).
Proof. split; reflexivity. Qed.

(** 'can override properties on the base type' *)
Example extended_overrides :
  validate
    (Bob.extend "extended"
       (Bob.rec "base" [("prop1", Bob.str "prop1" []);
                        ("prop2", Bob.bool "prop2" None)])
       [("prop2", Bob.str "prop2str" [])])
    (VObj [("prop1", VStr "hello"); ("prop2", VStr "world")]) []
  = Return (VObj [("prop1", VStr "hello"); ("prop2", VStr "world")]).
Proof. reflexivity. Qed.

(** 'can round-trip a list of lists' *)
Example list_of_lists :
  validate (Bob.list "someList"
              (Bob.list "nestedList" (Bob.num "nestedListItem" [])))
           (VArr [VArr [Examples.five]; VArr []]) []
  = Return (VArr [VArr [Examples.five]; VArr []]).
Proof. reflexivity. Qed.

End TestSuite.

(** * What [validate] returns *)

Section Results.

Lemma set_built o k v : Js.is_built o = true -> Js.is_built (Js.set o k v) = true.
Proof.
  unfold Js.set. destruct o; try discriminate; intros _.
  - destruct (String.eqb k "__proto__" && negb (Js.owns props k));
      [destruct (Js.is_prototype v) |]; reflexivity.
  - destruct (String.eqb k "__proto__" && negb (Js.owns props k)
              && Js.reaches_setter o);
      [destruct (Js.is_prototype v) |]; reflexivity.
Qed.

Lemma set_own_NoDup o k v :
  NoDup (Js.keys (Js.own_enumerable o)) ->
  NoDup (Js.keys (Js.own_enumerable (Js.set o k v))).
Proof.
  unfold Js.set. destruct o; try (intros H; exact H); intros H.
  - destruct (String.eqb k "__proto__" && negb (Js.owns props k));
      [destruct (Js.is_prototype v); exact H |].
    simpl. now apply NoDup_define.
  - destruct (String.eqb k "__proto__" && negb (Js.owns props k)
              && Js.reaches_setter o);
      [destruct (Js.is_prototype v); exact H |].
    simpl. now apply NoDup_define.
Qed.

Lemma assign_built target source :
  Js.is_built target = true -> Js.is_built (Js.assign target source) = true.
Proof.
  unfold Js.assign. generalize (Js.own_enumerable source) as l. intros l.
  revert target. induction l as [| [k w] l IH]; intros target H;
    [assumption |].
  cbn [fold_left fst snd]. apply IH. now apply set_built.
Qed.

Lemma assign_own_NoDup target source :
  NoDup (Js.keys (Js.own_enumerable target)) ->
  NoDup (Js.keys (Js.own_enumerable (Js.assign target source))).
Proof.
  unfold Js.assign. generalize (Js.own_enumerable source) as l. intros l.
  revert target. induction l as [| [k w] l IH]; intros target H;
    [assumption |].
  cbn [fold_left fst snd]. apply IH. now apply set_own_NoDup.
Qed.

(** What the loop returns is an object the code built, with each own
    property once. *)
Lemma record_loop_built {A : Type} (V : A -> value -> completion value)
    u K (entries : list (string * A)) :
  forall acc r,
    Js.is_built acc = true -> NoDup (Js.keys (Js.own_enumerable acc)) ->
    record_loop V u K entries acc = Return r ->
    Js.is_built r = true /\ NoDup (Js.keys (Js.own_enumerable r)).
Proof.
  induction entries as [| [key validator] rest IH]; simpl;
    intros acc r Hb Hnd H.
  - injection H as <-. auto.
  - destruct (Js.has K key); [now apply (IH acc) |].
    destruct (Js.get u key) as [x | e]; simpl in H; [| discriminate].
    destruct (V validator x) as [v | e]; simpl in H; [| discriminate].
    destruct (Js.assignable acc key); [| discriminate].
    apply (IH (Js.set acc key v));
      [now apply set_built | now apply set_own_NoDup | assumption].
Qed.

Lemma record_validate_built {A : Type} (V : A -> value -> completion value)
    name (schema : list (string * A)) u K r :
  record_validate V name schema u K = Return r ->
  Js.typeof u = "object" /\ Js.is_built r = true
  /\ NoDup (Js.keys (Js.own_enumerable r)).
Proof.
  unfold record_validate.
  destruct (String.eqb_spec (Js.typeof u) "object") as [Hty | Hty]; simpl;
    [| discriminate].
  intros H. split; [assumption |].
  apply (record_loop_built V u K schema (VObj []) r); auto. constructor.
Qed.

(** With ordinary keys the loop returns a plain object. *)
Lemma record_loop_object {A : Type} (V : A -> value -> completion value)
    u K (entries : list (string * A)) :
  ~ In "__proto__" (Js.keys entries) ->
  forall acc r,
    record_loop V u K entries (VObj acc) = Return r ->
    exists props, r = VObj props.
Proof.
  induction entries as [| [key validator] rest IH]; simpl; intros Hord acc r H.
  - injection H as <-. now exists acc.
  - destruct (Js.has K key); [apply (IH ltac:(tauto) acc); assumption |].
    destruct (Js.get u key) as [x | e]; simpl in H; [| discriminate].
    destruct (V validator x) as [v | e]; simpl in H; [| discriminate].
    rewrite set_ordinary in H by (intros ->; tauto).
    apply (IH ltac:(tauto) _ _ H).
Qed.

Lemma record_validate_object {A : Type} (V : A -> value -> completion value)
    name (schema : list (string * A)) u K r :
  ~ In "__proto__" (Js.keys schema) ->
  record_validate V name schema u K = Return r ->
  Js.typeof u = "object" /\ exists props, r = VObj props.
Proof.
  intros Hord H. split; [exact (proj1 (record_validate_built _ _ _ _ _ _ H)) |].
  unfold record_validate in H.
  destruct (negb (String.eqb (Js.typeof u) "object")); [discriminate |].
  eapply record_loop_object; eassumption.
Qed.

(** The loop of [ListType.validate], item by item. *)
Lemma list_loop_Forall2 (V : value -> completion value) items :
  forall acc r,
    list_loop V items acc = Return r ->
    exists rs, r = VArr (acc ++ rs)
               /\ Forall2 (fun i v => V i = Return v) items rs.
Proof.
  induction items as [| i items IH]; simpl; intros acc r H.
  - injection H as <-. exists []. now rewrite app_nil_r.
  - destruct (V i) as [v | e] eqn:Hv; simpl in H; [| discriminate].
    destruct (IH _ _ H) as (rs & -> & Hrs).
    exists (v :: rs). rewrite <- app_assoc. split; [reflexivity |].
    now constructor.
Qed.

Lemma Forall2_list_loop (V : value -> completion value) items rs :
  Forall2 (fun i v => V i = Return v) items rs ->
  forall acc, list_loop V items acc = Return (VArr (acc ++ rs)).
Proof.
  induction 1 as [| i v items rs Hv _ IH]; simpl; intros acc.
  - now rewrite app_nil_r.
  - rewrite Hv. simpl. rewrite IH. now rewrite <- app_assoc.
Qed.

(** No [validate] returns [null]: an optional turns it into [undefined]. *)
Lemma validate_not_null t :
  forall u K r, validate t u K = Return r -> r <> VNull.
Proof.
  induction t as [name lit | name lits | name lits | name | base IH
                 | name schema IH | name base schema IHbase IH
                 | name d schemas IH | name item IH] using TypeImpl_ind;
    intros u K r H;
    try (assert (Hr := H);
         apply scalar_returns_input in Hr as ->; [| reflexivity];
         destruct u; discriminate).
  - destruct u; simpl in H;
      try (now apply (IH _ _ _ H)); injection H as <-; discriminate.
  - rewrite validate_record in H.
    apply record_validate_built in H as (_ & Hb & _).
    intros ->. discriminate.
  - rewrite validate_extends in H.
    destruct (validate base u (Js.keys schema)) as [br | e]; cbn [bind] in H;
      [| discriminate].
    destruct (validate (RecordType name schema) u []) as [sr | e];
      cbn [bind] in H; [| discriminate].
    injection H as <-. intros Hnull.
    assert (Hb : Js.is_built (Js.spread br sr) = true)
      by (apply assign_built, assign_built; reflexivity).
    rewrite Hnull in Hb. discriminate.
  - rewrite validate_union in H.
    apply find_then_Return in H
      as [(pre & s & post & -> & _ & _ & Hs) | [_ Hnf]]; [| discriminate].
    rewrite Forall_forall in IH.
    apply (IH s) in Hs; [assumption |]. apply in_elt.
  - simpl in H. destruct u; try discriminate.
    apply list_loop_Forall2 in H as (rs & -> & _). discriminate.
Qed.

Lemma lookup_define_all_empty source k :
  NoDup (Js.keys source) ->
  Js.lookup k (Js.define_all [] source) = Js.lookup k source.
Proof.
  intros Hnd. destruct (Js.lookup k source) as [v |] eqn:Hlk.
  - now apply lookup_define_all_own.
  - apply lookup_None in Hlk. now rewrite lookup_define_all_other.
Qed.

(** The spread of two plain objects with ordinary keys. *)
Lemma spread_ordinary b o :
  ~ In "__proto__" (Js.keys b) -> ~ In "__proto__" (Js.keys o) ->
  Js.spread (VObj b) (VObj o)
  = VObj (Js.define_all (Js.define_all [] b) o).
Proof.
  intros Hb Ho. unfold Js.spread.
  now rewrite (assign_ordinary [] b Hb), (assign_ordinary _ o Ho).
Qed.

End Results.

(** * Validation of its own results *)

Section Idempotence.

Local Abbreviation V :=
  (fun (validator : TypeImpl) (propValue : value) =>
     validate validator propValue []).

Lemma ordinary_record name schema :
  ordinary_keys (RecordType name schema) = true ->
  ~ In "__proto__" (Js.keys schema)
  /\ forallb (fun kv => ordinary_keys (snd kv)) schema = true.
Proof.
  simpl. intros H. apply andb_true_iff in H as [Hk Hf].
  apply negb_true_iff, has_false in Hk. auto.
Qed.

Lemma ordinary_extends name base schema :
  ordinary_keys (ExtendsType name base schema) = true ->
  ordinary_keys base = true /\ ~ In "__proto__" (Js.keys schema)
  /\ forallb (fun kv => ordinary_keys (snd kv)) schema = true.
Proof.
  simpl. intros H. apply andb_true_iff in H as [H Hf].
  apply andb_true_iff in H as [Hb Hk].
  apply negb_true_iff, has_false in Hk. auto.
Qed.

Lemma collected_ordinary {A : Type} (W : A -> value -> completion value)
    u K (entries : list (string * A)) vs :
  ~ In "__proto__" (Js.keys entries) ->
  record_collect W u K entries = Return vs ->
  ~ In "__proto__" (Js.keys vs).
Proof.
  intros Hord H Hin. rewrite (record_collect_keys _ _ _ _ _ H) in Hin.
  apply filter_In in Hin as [Hin _]. contradiction.
Qed.

Lemma plain_fields (schema : list (string * TypeImpl)) :
  Forall (fun kv => plain (snd kv) = true -> ordinary_keys (snd kv) = true ->
                    idempotent (snd kv)) schema ->
  forallb (fun kv => plain (snd kv)) schema = true ->
  forallb (fun kv => ordinary_keys (snd kv)) schema = true ->
  Forall (fun kv => forall x v, V (snd kv) x = Return v ->
                                V (snd kv) v = Return v) schema.
Proof.
  intros IH Hplain Hord. rewrite forallb_forall in Hplain, Hord.
  rewrite Forall_forall in IH |- *. intros kv Hin x v Hv.
  exact (IH kv Hin (Hplain kv Hin) (Hord kv Hin) x [] v Hv).
Qed.

(** A record hands a scalar field over as it found it. *)
Lemma record_keeps_scalar name schema d f u r :
  NoDup (Js.keys schema) -> ~ In "__proto__" (Js.keys schema) ->
  Js.lookup d schema = Some f -> scalar f = true ->
  validate (RecordType name schema) u [] = Return r ->
  Js.typeof u = "object" /\ Js.typeof r = "object"
  /\ exists x, Js.get u d = Return x /\ Js.get r d = Return x.
Proof.
  intros Hnd Hord Hlk Hscalar H. rewrite validate_record in H.
  destruct (record_validate_built _ _ _ _ _ _ H) as [Hty _].
  rewrite record_validate_collect in H by assumption.
  rewrite Hty in H. simpl in H.
  destruct (record_collect V u [] schema) as [vs | e] eqn:Hvs;
    cbn [bind] in H; [| discriminate].
  injection H as <-. repeat split; [assumption |].
  apply lookup_Some_In in Hlk.
  destruct (record_collect_In V u [] schema vs d f Hvs Hlk eq_refl)
    as (x & v & Hget & Hv & Hin).
  apply scalar_returns_input in Hv as ->; [| assumption].
  exists x. split; [assumption |]. simpl.
  rewrite (In_lookup d x vs); [reflexivity | | assumption].
  eapply record_collect_NoDup; eassumption.
Qed.

(** The probe of a record reads the discriminator and nothing else. *)
Lemma probe_reads_discriminator name schema d u1 u2 :
  NoDup (Js.keys schema) -> In d (Js.keys schema) ->
  Js.typeof u1 = Js.typeof u2 -> Js.get u1 d = Js.get u2 d ->
  probe d u1 (RecordType name schema) = probe d u2 (RecordType name schema).
Proof.
  intros Hnd Hin Hty Hget. rewrite !probe_record by assumption.
  unfold probe_succeeds, own_field_names. simpl. f_equal.
  apply record_validate_ext; [assumption |].
  intros k Hk Hhas. now rewrite (has_minus _ _ _ Hhas Hk).
Qed.

Lemma plain_idempotent t :
  plain t = true -> ordinary_keys t = true -> idempotent t.
Proof.
  induction t as [name lit | name lits | name lits | name | base IH
                 | name schema IH | name base schema IHbase IH
                 | name d schemas IH | name item IH] using TypeImpl_ind;
    intros Hplain Hord u K r H;
    try (assert (Hr := H);
         apply scalar_returns_input in Hr as ->; [| reflexivity];
         exact H).
  - (* optional *)
    assert (Hnull : r <> VNull).
    { destruct u; simpl in H;
        try (now apply (validate_not_null _ _ _ _ H));
        injection H as <-; discriminate. }
    assert (Hr : r = VUndefined \/ validate base r [] = Return r).
    { destruct u; simpl in H;
        try (right; now apply (IH Hplain Hord _ _ _ H));
        left; now injection H as <-. }
    destruct Hr as [-> | Hr]; [reflexivity |].
    destruct r; simpl; try assumption; [reflexivity | congruence].
  - (* record *)
    simpl in Hplain. apply andb_true_iff in Hplain as [Hd Hfields].
    destruct (ordinary_record _ _ Hord) as [Hk Hordf].
    rewrite validate_record in *.
    apply (record_validate_again V name schema u K r);
      [now apply distinct_NoDup | assumption | | assumption].
    now apply plain_fields.
  - (* extension of a record *)
    simpl in Hplain. apply andb_true_iff in Hplain as [Hplain Hfields].
    apply andb_true_iff in Hplain as [Hplain Hd].
    apply andb_true_iff in Hplain as [Hrec Hbase].
    apply distinct_NoDup in Hd.
    destruct (ordinary_extends _ _ _ Hord) as (Hordb & Hk & Hordf).
    destruct base as [| | | | | bname bschema | | |]; try discriminate.
    destruct (ordinary_record _ _ Hordb) as [Hbk _].
    assert (Hbd : NoDup (Js.keys bschema)).
    { simpl in Hbase. apply andb_true_iff in Hbase as [Hbd _].
      now apply distinct_NoDup. }
    rewrite validate_extends in H.
    destruct (validate (RecordType bname bschema) u (Js.keys schema))
      as [br | e] eqn:Hb; cbn [bind] in H; [| discriminate].
    destruct (validate (RecordType name schema) u []) as [sr | e] eqn:Hs;
      cbn [bind] in H; [| discriminate].
    injection H as <-.
    assert (Hb' := Hb). assert (Hs' := Hs).
    rewrite validate_record, record_validate_collect in Hb', Hs'
      by assumption.
    destruct (negb (String.eqb (Js.typeof u) "object")); [discriminate |].
    destruct (record_collect V u (Js.keys schema) bschema) as [bvs | e]
      eqn:Hbvs; cbn [bind] in Hb'; [| discriminate].
    destruct (record_collect V u [] schema) as [svs | e] eqn:Hsvs;
      cbn [bind] in Hs'; [| discriminate].
    injection Hb' as <-. injection Hs' as <-.
    assert (Hbn : NoDup (Js.keys bvs))
      by exact (record_collect_NoDup V u _ bschema bvs Hbd Hbvs).
    assert (Hsn : NoDup (Js.keys svs))
      by exact (record_collect_NoDup V u _ schema svs Hd Hsvs).
    assert (Hsk : Js.keys svs = Js.keys schema).
    { rewrite (record_collect_keys _ _ _ _ _ Hsvs).
      apply forallb_filter_id. apply forallb_forall. reflexivity. }
    assert (Hbo : ~ In "__proto__" (Js.keys bvs))
      by exact (collected_ordinary V u _ bschema bvs Hbk Hbvs).
    assert (Hso : ~ In "__proto__" (Js.keys svs))
      by exact (collected_ordinary V u _ schema svs Hk Hsvs).
    rewrite validate_extends.
    rewrite (spread_ordinary bvs svs Hbo Hso).
    set (m := Js.define_all (Js.define_all [] bvs) svs).
    assert (Hbase' : validate (RecordType bname bschema) (VObj m)
                       (Js.keys schema) = Return (VObj bvs)).
    { rewrite <- (IHbase Hbase Hordb _ _ _ Hb). rewrite !validate_record.
      apply record_validate_ext; [reflexivity | | reflexivity].
      intros k _ Hkk. apply has_false in Hkk. rewrite <- Hsk in Hkk.
      unfold m. simpl.
      rewrite lookup_define_all_other by assumption.
      now rewrite lookup_define_all_empty. }
    assert (Hown' : validate (RecordType name schema) (VObj m) []
                    = Return (VObj svs)).
    { rewrite <- (record_validate_again V name schema u [] (VObj svs) Hd Hk
                    (plain_fields schema IH Hfields Hordf) Hs).
      rewrite !validate_record.
      apply record_validate_ext; [reflexivity | | reflexivity].
      intros k Hkk _. rewrite <- Hsk in Hkk.
      unfold m. simpl.
      destruct (Js.lookup k svs) as [v |] eqn:Hlk.
      - now rewrite (lookup_define_all_own _ _ _ v Hsn Hlk).
      - apply lookup_None in Hlk. contradiction. }
    rewrite Hbase'. cbn [bind]. rewrite Hown'. cbn [bind].
    now rewrite (spread_ordinary bvs svs Hbo Hso).
  - (* union of records with a scalar discriminator *)
    simpl in Hplain, Hord. rewrite forallb_forall in Hplain, Hord.
    rewrite Forall_forall in IH.
    assert (Hbranch : forall s, In s schemas ->
              exists sname sschema f,
                s = RecordType sname sschema /\ NoDup (Js.keys sschema)
                /\ ~ In "__proto__" (Js.keys sschema)
                /\ Js.lookup d sschema = Some f /\ scalar f = true).
    { intros s Hin. specialize (Hplain s Hin). specialize (Hord s Hin).
      apply andb_true_iff in Hplain as [Hp Hsf].
      destruct s as [| | | | | sname sschema | | |]; try discriminate.
      destruct (ordinary_record _ _ Hord) as [Hk _].
      simpl in Hsf, Hp. apply andb_true_iff in Hp as [Hp _].
      destruct (Js.lookup d sschema) as [f |] eqn:Hlk; [| discriminate].
      exists sname, sschema, f. repeat split; auto.
      now apply distinct_NoDup. }
    rewrite validate_union in *.
    apply find_then_Return in H
      as [(pre & s & post & -> & Hpre & Hs & Hfound) | [_ Hnf]];
      [| discriminate].
    destruct (Hbranch s (in_elt s pre post))
      as (sname & sschema & f & -> & Hnd & Hk & Hlk & Hscalar).
    destruct (record_keeps_scalar _ _ _ _ _ _ Hnd Hk Hlk Hscalar Hfound)
      as (Htu & Htr & x & Hgu & Hgr).
    assert (Hsame : forall p, In p (pre ++ RecordType sname sschema :: post) ->
                              probe d r p = probe d u p).
    { intros p Hin.
      destruct (Hbranch p Hin) as (pn & ps & pf & -> & Hpnd & _ & Hplk & _).
      apply probe_reads_discriminator;
        [assumption | | congruence | congruence].
      apply lookup_Some_In in Hplk. apply (in_map fst) in Hplk. exact Hplk. }
    rewrite find_then_first.
    + specialize (Hplain _ (in_elt (RecordType sname sschema) pre post)).
      apply andb_true_iff in Hplain as [Hp _].
      exact (IH _ (in_elt _ pre post) Hp (Hord _ (in_elt _ pre post))
               u [] r Hfound).
    + intros p Hin. rewrite Hsame by (apply in_or_app; now left).
      now apply Hpre.
    + rewrite Hsame by apply in_elt. assumption.
  - (* list *)
    simpl in H. destruct u; try discriminate.
    apply list_loop_Forall2 in H as (rs & -> & Hrs). simpl.
    apply (Forall2_list_loop _ rs rs).
    clear - Hrs IH Hplain Hord. simpl in Hplain, Hord.
    induction Hrs as [| i v items rs Hv _ IHrs]; constructor;
      [| assumption].
    exact (IH Hplain Hord i [] v Hv).
Qed.

End Idempotence.

(** * The fields of a validated value *)

Section FieldPruning.

Local Abbreviation V :=
  (fun (validator : TypeImpl) (propValue : value) =>
     validate validator propValue []).

Lemma expected_fields_nil t u :
  forall k, In k (expected_fields t u []) <-> In k (field_table t u).
Proof.
  intros k. destruct t; simpl; try tauto.
  rewrite filter_In. simpl. tauto.
Qed.

Lemma field_table_selected name d pre s post u :
  (forall p, In p pre -> probe d u p = Return false) ->
  probe d u s = Return true ->
  field_table (UnionRecordType name d (pre ++ s :: post)) u = field_table s u.
Proof.
  intros Hpre Hs. simpl. induction pre as [| p pre IH]; simpl.
  - now rewrite Hs.
  - rewrite (Hpre p) by now left. simpl. apply IH.
    intros q Hq. apply Hpre. now right.
Qed.

End FieldPruning.

Lemma expected_fields_In t u K k :
  In k (expected_fields t u K) -> In k (field_table t u).
Proof.
  destruct t; simpl; try tauto. intros H. now apply filter_In in H as [H _].
Qed.

Lemma field_table_ordinary t :
  forall u, ordinary_keys t = true -> ~ In "__proto__" (field_table t u).
Proof.
  induction t as [name lit | name lits | name lits | name | base IH
                 | name schema IH | name base schema IHbase IH
                 | name d schemas IH | name item IH] using TypeImpl_ind;
    intros u Hord; simpl; try tauto.
  - now destruct (ordinary_record _ _ Hord).
  - destruct (ordinary_extends _ _ _ Hord) as (Hb & Hk & _).
    intros Hin. apply in_app_or in Hin as [Hin | Hin]; [| contradiction].
    exact (IHbase u Hb Hin).
  - simpl in Hord. rewrite forallb_forall in Hord.
    rewrite Forall_forall in IH.
    induction schemas as [| s rest IHrest]; [tauto |].
    destruct (returns_true (probe d u s)).
    + apply IH; [now left | apply Hord; now left].
    + apply IHrest.
      * intros x Hx. apply IH. now right.
      * intros x Hx. apply Hord. now right.
Qed.

Lemma field_pruning t :
  well_formed t = true -> ordinary_keys t = true -> recordish t = true ->
  forall (u : value) (ignoredKeys : list string) (r : value),
    validate t u ignoredKeys = Return r ->
    exists props,
      r = VObj props /\ NoDup (Js.keys props)
      /\ forall k, In k (Js.keys props)
                   <-> In k (expected_fields t u ignoredKeys).
Proof.
  induction t as [name lit | name lits | name lits | name | base IH
                 | name schema IH | name base schema IHbase IH
                 | name d schemas IH | name item IH] using TypeImpl_ind;
    intros Hwf Hord Hrec u K r H; try discriminate.
  - (* record *)
    simpl in Hwf. apply andb_true_iff in Hwf as [Hd _].
    apply distinct_NoDup in Hd.
    destruct (ordinary_record _ _ Hord) as [Hk _].
    rewrite validate_record, record_validate_collect in H by assumption.
    destruct (negb (String.eqb (Js.typeof u) "object")); [discriminate |].
    destruct (record_collect _ u K schema) as [vs | e] eqn:Hvs;
      cbn [bind] in H; [| discriminate].
    injection H as <-. exists vs. split; [reflexivity |].
    split; [eapply record_collect_NoDup; eassumption |].
    intros k. rewrite (record_collect_keys _ _ _ _ _ Hvs). reflexivity.
  - (* extension *)
    simpl in Hwf. apply andb_true_iff in Hwf as [Hwf _].
    apply andb_true_iff in Hwf as [Hwf Hd].
    apply andb_true_iff in Hwf as [Hbrec Hbwf].
    apply distinct_NoDup in Hd.
    destruct (ordinary_extends _ _ _ Hord) as (Hordb & Hk & _).
    rewrite validate_extends in H.
    destruct (validate base u (Js.keys schema)) as [br | e] eqn:Hb;
      cbn [bind] in H; [| discriminate].
    destruct (validate (RecordType name schema) u []) as [sr | e] eqn:Hs;
      cbn [bind] in H; [| discriminate].
    injection H as <-.
    destruct (IHbase Hbwf Hordb Hbrec _ _ _ Hb) as (bp & -> & Hbn & Hbk).
    rewrite validate_record, record_validate_collect in Hs by assumption.
    destruct (negb (String.eqb (Js.typeof u) "object")); [discriminate |].
    destruct (record_collect _ u [] schema) as [svs | e] eqn:Hsvs;
      cbn [bind] in Hs; [| discriminate].
    injection Hs as <-.
    assert (Hsk : Js.keys svs = Js.keys schema).
    { rewrite (record_collect_keys _ _ _ _ _ Hsvs).
      apply forallb_filter_id. apply forallb_forall. reflexivity. }
    assert (Hbo : ~ In "__proto__" (Js.keys bp)).
    { intros Hin. apply Hbk, expected_fields_In in Hin.
      exact (field_table_ordinary base u Hordb Hin). }
    assert (Hso : ~ In "__proto__" (Js.keys svs)) by now rewrite Hsk.
    rewrite (spread_ordinary bp svs Hbo Hso).
    eexists. split; [reflexivity |]. split.
    + apply NoDup_define_all, NoDup_define_all. constructor.
    + intros k. rewrite !keys_define_all, Hsk, Hbk.
      change (expected_fields (ExtendsType name base schema) u K)
        with (field_table base u ++ Js.keys schema).
      rewrite in_app_iff. simpl.
      destruct base; simpl; try tauto.
      rewrite filter_In, negb_true_iff, has_false.
      destruct (Js.has (Js.keys schema) k) eqn:Hkk.
      * apply has_In in Hkk. tauto.
      * apply has_false in Hkk. tauto.
  - (* union *)
    rewrite validate_union in H.
    apply find_then_Return in H
      as [(pre & s & post & -> & Hpre & Hs & Hfound) | [_ Hnf]];
      [| discriminate].
    destruct (well_formed_union _ _ _ Hwf s (in_elt s pre post))
      as (Hsrec & Hswf & _).
    assert (Hsord : ordinary_keys s = true).
    { simpl in Hord. rewrite forallb_forall in Hord. apply Hord, in_elt. }
    rewrite Forall_forall in IH.
    destruct (IH s (in_elt s pre post) Hswf Hsord Hsrec _ _ _ Hfound)
      as (props & -> & Hnd & Hk).
    exists props. repeat split; [assumption | |].
    + intros Hin. apply Hk in Hin. apply expected_fields_nil in Hin.
      change (In k (field_table
                      (UnionRecordType name d (pre ++ s :: post)) u)).
      now rewrite field_table_selected.
    + intros Hin.
      change (In k (field_table
                      (UnionRecordType name d (pre ++ s :: post)) u)) in Hin.
      rewrite field_table_selected in Hin by assumption.
      apply Hk. now apply expected_fields_nil.
Qed.

(** C4. Field pruning: whenever a record-like schema none of whose tables
    has a field named [__proto__] accepts a value, the result is an object
    whose properties are exactly the fields the schema answers to, each
    once: for a record the fields of its table that were not ignored, for
    an extension the base fields plus the own fields, for a union the
    fields of the selected branch; nothing else of the input is in the
    result.  A field named [__proto__] is lost: the record
    [{ __proto__: str }] accepts an object whose own property [__proto__]
    is the string ['x'] and returns the empty object, because the
    assignment [result['__proto__'] = 'x'] runs the setter of
    [Object.prototype] and defines no property. *)
Theorem field_pruning_total :
  (forall t,
     well_formed t = true -> ordinary_keys t = true -> recordish t = true ->
     forall (u : value) (ignoredKeys : list string) (r : value),
       validate t u ignoredKeys = Return r ->
       exists props,
         r = VObj props /\ NoDup (Js.keys props)
         /\ forall k, In k (Js.keys props)
                      <-> In k (expected_fields t u ignoredKeys))
  /\ well_formed Examples.proto_record = true
  /\ recordish Examples.proto_record = true
  /\ expected_fields Examples.proto_record Examples.proto_x [] = ["__proto__"]
  /\ validate Examples.proto_record Examples.proto_x [] = Return (VObj []).
Proof.
  split; [exact field_pruning |]. repeat split.
Qed.

Lemma field_pruning_total_witness :
  exists props,
    validate Examples.user Examples.user_with_email [] = Return (VObj props)
    /\ NoDup (Js.keys props)
    /\ forall k, In k (Js.keys props) <-> In k ["id"; "username"].
Proof.
  destruct (proj1 field_pruning_total Examples.user eq_refl eq_refl eq_refl
              Examples.user_with_email [] Examples.user_pruned eq_refl)
    as (props & Hr & Hnd & Hk).
  exists props. split; [now rewrite <- Hr | split; [exact Hnd | exact Hk]].
Defined.

(** * Objects returned by [validate] have each property once *)

Section ObjectResults.

Lemma owns_In props k : Js.owns props k = true <-> In k (Js.keys props).
Proof. apply has_In. Qed.

Lemma well_built_reaches v :
  Js.well_built v -> v <> VNull -> Js.is_prototype v = true ->
  Js.reaches_setter v = true.
Proof.
  destruct v; simpl; try discriminate; try reflexivity; try congruence.
  - intros [_ Hk] _ _. apply negb_true_iff.
    destruct (Js.owns props "__proto__") eqn:Ho; [| reflexivity].
    apply owns_In in Ho. contradiction.
  - intros (_ & Hk & Hr) _ _.
    destruct (Js.owns props "__proto__") eqn:Ho; [| assumption].
    apply owns_In in Ho. contradiction.
Qed.

Lemma define_ordinary props k v :
  k <> "__proto__" ->
  NoDup (Js.keys props) -> ~ In "__proto__" (Js.keys props) ->
  NoDup (Js.keys (Js.define props k v))
  /\ ~ In "__proto__" (Js.keys (Js.define props k v)).
Proof.
  intros Hk Hnd Hp. split; [now apply NoDup_define |].
  rewrite keys_define. intros [Heq | Hin]; [congruence | contradiction].
Qed.

Lemma set_well_built o k v :
  Js.is_built o = true -> Js.well_built o ->
  (k = "__proto__" -> Js.well_built v /\ v <> VNull) ->
  Js.is_built (Js.set o k v) = true /\ Js.well_built (Js.set o k v).
Proof.
  intros Hb Hw Hv. split; [now apply set_built |].
  unfold Js.set. destruct o; try discriminate; simpl in Hw.
  - destruct Hw as [Hnd Hp].
    assert (Ho : Js.owns props "__proto__" = false).
    { destruct (Js.owns props "__proto__") eqn:Ho; [| reflexivity].
      apply owns_In in Ho. contradiction. }
    destruct (String.eqb_spec k "__proto__") as [-> | Hne].
    + rewrite Ho. simpl. destruct (Hv eq_refl) as [Hwv Hnn].
      destruct (Js.is_prototype v) eqn:Hpv; simpl; auto.
      repeat split; auto. now apply well_built_reaches.
    + simpl. now apply define_ordinary.
  - destruct Hw as (Hnd & Hp & Hr).
    assert (Ho : Js.owns props "__proto__" = false).
    { destruct (Js.owns props "__proto__") eqn:Ho; [| reflexivity].
      apply owns_In in Ho. contradiction. }
    destruct (String.eqb_spec k "__proto__") as [-> | Hne].
    + rewrite Ho, Hr. simpl. destruct (Hv eq_refl) as [Hwv Hnn].
      destruct (Js.is_prototype v) eqn:Hpv; simpl; auto.
      repeat split; auto. now apply well_built_reaches.
    + simpl. destruct (define_ordinary props k v Hne Hnd Hp). auto.
Qed.

Lemma index_key_ordinary i : Js.index_key i <> "__proto__".
Proof.
  unfold Js.index_key. destruct (Nat.to_uint i); simpl; discriminate.
Qed.

Lemma indexed_ordinary items :
  forall i, ~ In "__proto__" (Js.keys (Js.indexed items i)).
Proof.
  induction items as [| x items IH]; simpl; intros i; [tauto |].
  intros [Heq | Hin]; [exact (index_key_ordinary i Heq) | exact (IH _ Hin)].
Qed.

Lemma own_enumerable_ordinary v :
  Js.well_built v -> ~ In "__proto__" (Js.keys (Js.own_enumerable v)).
Proof.
  destruct v; simpl; try tauto; try (intros _; apply indexed_ordinary).
Qed.

Lemma assign_well_built target source :
  Js.is_built target = true -> Js.well_built target ->
  ~ In "__proto__" (Js.keys (Js.own_enumerable source)) ->
  Js.is_built (Js.assign target source) = true
  /\ Js.well_built (Js.assign target source).
Proof.
  unfold Js.assign. generalize (Js.own_enumerable source) as l. intros l.
  revert target. induction l as [| [k w] l IH]; intros target Hb Hw Hl;
    [auto |].
  cbn [fold_left fst snd]. simpl in Hl.
  destruct (set_well_built target k w Hb Hw) as [Hb' Hw'].
  { intros ->. tauto. }
  apply IH; auto.
Qed.

Lemma record_loop_well_built {A : Type}
    (V : A -> value -> completion value) u K (entries : list (string * A)) :
  Forall (fun kv => forall x v, V (snd kv) x = Return v ->
                                Js.well_built v /\ v <> VNull) entries ->
  forall acc r,
    Js.is_built acc = true -> Js.well_built acc ->
    record_loop V u K entries acc = Return r -> Js.well_built r.
Proof.
  induction 1 as [| [key validator] rest Hhead _ IH]; simpl;
    intros acc r Hb Hw H.
  - now injection H as <-.
  - destruct (Js.has K key); [now apply (IH acc) |].
    destruct (Js.get u key) as [x | e]; simpl in H; [| discriminate].
    destruct (V validator x) as [v | e] eqn:Hv; simpl in H; [| discriminate].
    destruct (Js.assignable acc key); [| discriminate].
    destruct (set_well_built acc key v Hb Hw) as [Hb' Hw'].
    { intros _. exact (Hhead x v Hv). }
    exact (IH _ _ Hb' Hw' H).
Qed.

(** Every object a [validate] returns is well built. *)
Lemma validate_well_built t :
  forall u K r, validate t u K = Return r -> Js.well_built r.
Proof.
  induction t as [name lit | name lits | name lits | name | base IH
                 | name schema IH | name base schema IHbase IH
                 | name d schemas IH | name item IH] using TypeImpl_ind;
    intros u K r H;
    try (assert (Hr := H);
         apply scalar_returns_input in Hr; [| reflexivity];
         subst u; destruct r; try discriminate; exact I).
  - destruct u; simpl in H; try (now apply (IH _ _ _ H));
      injection H as <-; exact I.
  - rewrite validate_record in H. unfold record_validate in H.
    destruct (negb (String.eqb (Js.typeof u) "object")); [discriminate |].
    refine (record_loop_well_built _ u K schema _ (VObj []) r eq_refl _ H).
    + rewrite Forall_forall in IH |- *. intros kv Hin x v Hv.
      split; [exact (IH kv Hin x [] v Hv) |].
      exact (validate_not_null _ _ _ _ Hv).
    + simpl. split; [constructor | tauto].
  - rewrite validate_extends in H.
    destruct (validate base u (Js.keys schema)) as [br | e] eqn:Hb;
      cbn [bind] in H; [| discriminate].
    destruct (validate (RecordType name schema) u []) as [sr | e] eqn:Hs;
      cbn [bind] in H; [| discriminate].
    injection H as <-. unfold Js.spread.
    assert (Hsr : Js.well_built sr).
    { rewrite validate_record in Hs. unfold record_validate in Hs.
      destruct (negb (String.eqb (Js.typeof u) "object")); [discriminate |].
      refine (record_loop_well_built _ u [] schema _ (VObj []) sr eq_refl _ Hs).
      - rewrite Forall_forall in IH |- *. intros kv Hin x v Hv.
        split; [exact (IH kv Hin x [] v Hv) |].
        exact (validate_not_null _ _ _ _ Hv).
      - simpl. split; [constructor | tauto]. }
    destruct (assign_well_built (VObj []) br) as [Hb1 Hw1];
      [reflexivity | simpl; split; [constructor | tauto]
       | apply own_enumerable_ordinary; exact (IHbase _ _ _ Hb) |].
    apply assign_well_built; auto. now apply own_enumerable_ordinary.
  - rewrite validate_union in H.
    apply find_then_Return in H
      as [(pre & s & post & -> & _ & _ & Hs) | [_ Hnf]]; [| discriminate].
    rewrite Forall_forall in IH. exact (IH s (in_elt s pre post) _ _ _ Hs).
  - simpl in H. destruct u; try discriminate.
    apply list_loop_Forall2 in H as (rs & -> & _). exact I.
Qed.

Lemma validate_object_NoDup t :
  forall u K props,
    validate t u K = Return (VObj props) ->
    NoDup (Js.keys props) /\ ~ In "__proto__" (Js.keys props).
Proof.
  intros u K props H. exact (validate_well_built t u K _ H).
Qed.

(** Reading the spread of two plain objects: the second wins, then the
    first, then the prototype. *)
Lemma get_spread b o k :
  NoDup (Js.keys b) -> ~ In "__proto__" (Js.keys b) ->
  NoDup (Js.keys o) -> ~ In "__proto__" (Js.keys o) ->
  Js.get (Js.spread (VObj b) (VObj o)) k =
    Return (match Js.lookup k o with
            | Some x => x
            | None => Js.own_or (Js.lookup k b) (Js.inherited_from_object k)
            end).
Proof.
  intros Hb Hbp Ho Hop. rewrite spread_ordinary by assumption. simpl. f_equal.
  destruct (Js.lookup k o) as [x |] eqn:Hlk.
  - now rewrite (lookup_define_all_own _ _ _ x Ho Hlk).
  - apply lookup_None in Hlk.
    rewrite lookup_define_all_other by assumption.
    now rewrite lookup_define_all_empty.
Qed.

End ObjectResults.

(** * Unions *)

Section UnionFacts.

Lemma probes_agree name d schemas v :
  well_formed (UnionRecordType name d schemas) = true ->
  forallb has_schema schemas = true ->
  forall s, In s schemas -> probe d v s = Return (probe_succeeds d v s).
Proof.
  intros Hwf Htables s Hin.
  destruct (well_formed_union _ _ _ Hwf s Hin) as (_ & Hswf & Hkey).
  rewrite forallb_forall in Htables.
  apply probe_branch; auto.
Qed.

End UnionFacts.

(** First match.  For a union whose branches carry a field table
    ([schema]), [validate] selects the first branch in declaration order
    whose probe succeeds and returns the result of validating the value in
    full against that branch: when the branches before [s] fail their probe
    and [s] passes its own, the call is [s.validate(v)], whatever the later
    branches would do. *)
Lemma union_first_match name d schemas v K pre s post :
  well_formed (UnionRecordType name d schemas) = true ->
  forallb has_schema schemas = true ->
  schemas = pre ++ s :: post ->
  (forall p, In p pre -> probe_succeeds d v p = false) ->
  probe_succeeds d v s = true ->
  validate (UnionRecordType name d schemas) v K = validate s v [].
Proof.
  intros Hwf Htables -> Hpre Hs. rewrite validate_union.
  apply (find_then_first (probe d v) (fun schema => validate schema v [])).
  - intros p Hin.
    rewrite (probes_agree name d _ v Hwf Htables p)
      by (apply in_or_app; now left).
    now rewrite Hpre.
  - rewrite (probes_agree name d _ v Hwf Htables s) by apply in_elt.
    now rewrite Hs.
Qed.

Lemma union_first_match_witness :
  validate Examples.someUnion Examples.greeting []
  = validate Examples.greetings Examples.greeting []
  /\ validate Examples.greetings Examples.greeting []
     = Return Examples.greeting.
Proof.
  split; [| reflexivity].
  apply (union_first_match "someUnion" "kind"
           [Examples.hello; Examples.greetings] Examples.greeting []
           [Examples.hello] Examples.greetings []); try reflexivity.
  intros p [<- | []]. reflexivity.
Defined.

(** C1 at a union whose branch is a union.  The builder accepts the
    nesting (a union answers [hasKey]), the probe of the branch succeeds
    and the branch validates the value, but the outer [validate] reads
    [Object.keys(s.schema)] outside its [try], a union has no [schema], and
    the call throws a [TypeError] instead of returning what the first
    matching branch returns. *)
Theorem union_of_union_not_first_match :
  Bob.union "outer" "k" [Examples.inner] = Return Examples.outer
  /\ probe_succeeds "k" Examples.tagged_a Examples.inner = true
  /\ validate Examples.inner Examples.tagged_a [] = Return Examples.tagged_a
  /\ validate Examples.outer Examples.tagged_a [] = Throw TypeError
  /\ validate Examples.outer Examples.tagged_a []
     <> validate Examples.inner Examples.tagged_a [].
Proof.
  repeat split; try reflexivity. discriminate.
Qed.

(** No match.  For a union whose branches carry a field table, when no
    branch passes its probe [validate] throws the failure that names the
    union and the value, and nothing of what the branches threw. *)
Lemma union_no_matching_branch name d schemas v K :
  well_formed (UnionRecordType name d schemas) = true ->
  forallb has_schema schemas = true ->
  (forall s, In s schemas -> probe_succeeds d v s = false) ->
  validate (UnionRecordType name d schemas) v K
  = Throw (NoMatchingBranch name v).
Proof.
  intros Hwf Htables Hnone. rewrite validate_union.
  apply find_then_none. intros p Hin.
  rewrite (probes_agree name d _ v Hwf Htables p Hin).
  now rewrite Hnone.
Qed.

Lemma union_no_matching_branch_witness :
  validate Examples.someUnion (VObj [("kind", VStr "goodbye")]) []
  = Throw (NoMatchingBranch "someUnion" (VObj [("kind", VStr "goodbye")])).
Proof.
  apply (union_no_matching_branch "someUnion" "kind"
           [Examples.hello; Examples.greetings]); try reflexivity.
  intros s [<- | [<- | []]]; reflexivity.
Defined.

(** C6 at a union whose branch is a union.  No branch accepts the number
    [5]; the outer [validate] reads [Object.keys(s.schema)] outside its
    [try], a union has no [schema], and the call throws a [TypeError], not
    the failure naming the union and the value. *)
Theorem union_of_union_no_structured_failure :
  Bob.union "outer" "k" [Examples.inner] = Return Examples.outer
  /\ probe_succeeds "k" Examples.five Examples.inner = false
  /\ validate Examples.inner Examples.five []
     = Throw (NoMatchingBranch "inner" Examples.five)
  /\ validate Examples.outer Examples.five [] = Throw TypeError
  /\ validate Examples.outer Examples.five []
     <> Throw (NoMatchingBranch "outer" Examples.five).
Proof.
  repeat split; try reflexivity; try discriminate.
Qed.

(** * Records *)

(** What the guard [typeof u !== 'object'] of [RecordType.validate] does
    reject: every value whose [typeof] is not ['object']. *)
Lemma record_rejects_non_object name schema v K :
  Js.typeof v <> "object" ->
  validate (RecordType name schema) v K = Throw (NotAnObject name v).
Proof.
  intros Hty. rewrite validate_record. unfold record_validate.
  destruct (String.eqb_spec (Js.typeof v) "object"); [contradiction |].
  reflexivity.
Qed.

Lemma record_loop_null {A : Type} (V : A -> value -> completion value)
    K (entries : list (string * A)) acc :
  record_loop V VNull K entries acc = Throw TypeError
  \/ record_loop V VNull K entries acc = Return acc.
Proof.
  induction entries as [| [key validator] rest IH]; simpl; [now right |].
  destruct (Js.has K key); [exact IH | now left].
Qed.

(** C2 at the values the guard lets through.  [typeof null] is
    ['object']: on [null] no record throws the failure naming it; a record
    with a field that is not ignored throws the [TypeError] of the property
    read, and a record without such a field accepts [null].  An array is
    let through as well. *)
Theorem record_validate_null :
  (forall name schema K,
      validate (Bob.rec name schema) VNull K = Throw TypeError
      \/ validate (Bob.rec name schema) VNull K = Return (VObj []))
  /\ validate Examples.r_a VNull [] = Throw TypeError
  /\ validate Examples.r_a VNull [] <> Throw (NotAnObject "r" VNull)
  /\ validate Examples.empty VNull [] = Return (VObj [])
  /\ validate Examples.empty (VArr []) [] = Return (VObj []).
Proof.
  repeat split; try reflexivity; try discriminate.
  intros name schema K. apply record_loop_null.
Qed.

(** * Extensions *)

(** C3.  [validate] of an extension validates the value against the base
    with the names of the own fields as ignored keys, then against the
    record of the own fields with nothing ignored.  A failure of the base
    is the failure of the call; so is a failure of the own fields; when
    both return, the result is the base result overwritten by the
    own-fields result, so that a read of the result finds the own field
    where there is one, the base field otherwise, and what
    [Object.prototype] has under the name when neither has it.  On
    [{p: 5}] the
    extension of [B = {p: Str}] by [{p: Num}] returns [{p: 5}], which [B]
    itself rejects. *)
Theorem extension_validate name base own v K :
  (forall e, validate base v (Js.keys own) = Throw e ->
             validate (Bob.extend name base own) v K = Throw e)
  /\ (forall baseResult e,
         validate base v (Js.keys own) = Return baseResult ->
         validate (Bob.rec name own) v [] = Throw e ->
         validate (Bob.extend name base own) v K = Throw e)
  /\ (forall baseResult ownResult,
         validate base v (Js.keys own) = Return baseResult ->
         validate (Bob.rec name own) v [] = Return ownResult ->
         validate (Bob.extend name base own) v K
         = Return (Js.spread baseResult ownResult))
  /\ (forall b o k,
         validate base v (Js.keys own) = Return (VObj b) ->
         validate (Bob.rec name own) v [] = Return (VObj o) ->
         Js.get (Js.spread (VObj b) (VObj o)) k =
           Return (match Js.lookup k o with
                   | Some x => x
                   | None => Js.own_or (Js.lookup k b)
                                       (Js.inherited_from_object k)
                   end))
  /\ validate Examples.E Examples.p_is_5 [] = Return Examples.p_is_5
  /\ validate Examples.B Examples.p_is_5 []
     = Throw (TypeMismatch "p" "string" Examples.five).
Proof.
  unfold Bob.extend, Bob.rec. repeat split; try reflexivity.
  - intros e Hb. rewrite validate_extends, Hb. reflexivity.
  - intros br e Hb Ho. rewrite validate_extends, Hb. cbn [bind].
    rewrite Ho. reflexivity.
  - intros br sr Hb Ho. rewrite validate_extends, Hb. cbn [bind].
    rewrite Ho. reflexivity.
  - intros b o k Hb Ho.
    destruct (validate_object_NoDup _ _ _ _ Hb) as [Hbn Hbp].
    destruct (validate_object_NoDup _ _ _ _ Ho) as [Hon Hop].
    now apply get_spread.
Qed.

Lemma extension_validate_witness :
  validate (Bob.extend "E" Examples.B [("p", Bob.num "p" [])])
           Examples.p_is_5 []
  = Return (Js.spread (VObj []) Examples.p_is_5)
  /\ Js.get (Js.spread (VObj []) Examples.p_is_5) "p" = Return Examples.five.
Proof.
  destruct (extension_validate "E" Examples.B [("p", Bob.num "p" [])]
              Examples.p_is_5 []) as (_ & _ & Hboth & Hread & _).
  split.
  - apply Hboth; reflexivity.
  - apply (Hread [] [("p", Examples.five)] "p"); reflexivity.
Defined.

(** * Construction of a union *)

Section Construction.

Lemma check_discriminator_passes name d schemas :
  Bob.check_discriminator name d schemas = Return tt
  <-> forall s, In s schemas -> hasKey s d = Return true.
Proof.
  induction schemas as [| s rest IH]; simpl.
  - split; [intros _ s [] | reflexivity].
  - destruct (hasKey s d) as [[|] | e] eqn:Hs; simpl.
    + rewrite IH. split.
      * intros H p [<- | Hin]; auto.
      * intros H p Hin. apply H. now right.
    + split; [discriminate |]. intros H.
      specialize (H s (or_introl eq_refl)). congruence.
    + split; [discriminate |]. intros H.
      specialize (H s (or_introl eq_refl)). congruence.
Qed.

Lemma check_discriminator_first name d pre s post :
  (forall p, In p pre -> hasKey p d = Return true) ->
  hasKey s d = Return false ->
  Bob.check_discriminator name d (pre ++ s :: post)
  = Throw (MissingDiscriminator (name_of s) name d).
Proof.
  induction pre as [| p pre IH]; simpl; intros Hpre Hs.
  - rewrite Hs. reflexivity.
  - rewrite (Hpre p) by now left. simpl. apply IH; auto.
Qed.

(** [hasKey] of a well-formed record-like schema returns. *)
Lemma hasKey_returns t d :
  well_formed t = true -> recordish t = true ->
  exists b, hasKey t d = Return b.
Proof.
  induction t as [name lit | name lits | name lits | name | base IH
                 | name schema IH | name base schema IHbase IH
                 | name d' schemas IH | name item IH] using TypeImpl_ind;
    intros Hwf Hrec; try discriminate.
  - simpl. eauto.
  - simpl. destruct (Js.includes_string (Js.keys schema) d); [eauto |].
    simpl in Hwf. apply andb_true_iff in Hwf as [Hwf _].
    apply andb_true_iff in Hwf as [Hwf _].
    apply andb_true_iff in Hwf as [Hbrec Hbwf]. auto.
  - assert (Hall : forall s, In s schemas -> exists b, hasKey s d = Return b).
    { intros s Hin.
      destruct (well_formed_union _ _ _ Hwf s Hin) as (Hsrec & Hswf & _).
      rewrite Forall_forall in IH. auto. }
    clear - Hall. simpl. induction schemas as [| s rest IHrest]; [eauto |].
    destruct (Hall s (or_introl eq_refl)) as [b ->]. simpl.
    destruct b; [| eauto]. apply IHrest. intros p Hin. apply Hall. now right.
Qed.

Lemma first_without_key d schemas :
  (forall s, In s schemas -> exists b, hasKey s d = Return b) ->
  (exists s, In s schemas /\ hasKey s d = Return false) ->
  exists pre s post,
    schemas = pre ++ s :: post
    /\ (forall p, In p pre -> hasKey p d = Return true)
    /\ hasKey s d = Return false.
Proof.
  induction schemas as [| x rest IH]; intros Hall [s [Hin Hs]];
    [contradiction |].
  destruct (Hall x (or_introl eq_refl)) as [[|] Hx].
  - destruct Hin as [-> | Hin]; [congruence |].
    destruct IH as (pre & t & post & -> & Hpre & Ht).
    + intros p Hp. apply Hall. now right.
    + eauto.
    + exists (x :: pre), t, post. repeat split; auto.
      intros p [<- | Hp]; auto.
  - exists [], x, rest. repeat split; auto. intros p [].
Qed.

(** A union that the builder returns over well-formed record-like
    subschemas is well-formed. *)
Lemma union_well_formed name d schemas u :
  (forall s, In s schemas -> well_formed s = true /\ recordish s = true) ->
  Bob.union name d schemas = Return u -> well_formed u = true.
Proof.
  intros Hall Hu. unfold Bob.union in Hu.
  destruct (Bob.check_discriminator name d schemas) as [[] | e] eqn:Hcheck;
    [| discriminate].
  injection Hu as <-. simpl. apply forallb_forall. intros s Hin.
  destruct (Hall s Hin) as [-> ->].
  pose proof (proj1 (check_discriminator_passes name d schemas) Hcheck)
    as Hkeys.
  now rewrite (Hkeys s Hin).
Qed.

End Construction.

(** C5.  [union(name, discriminator, schemas)] returns the union exactly
    when [hasKey(discriminator)] holds of every subschema.  The first
    subschema without the key makes the constructor throw the failure
    naming that subschema, the union and the discriminator; on record-like
    subschemas this happens whenever some subschema lacks the key.  A
    construction that throws returns no schema, so nothing can be
    validated, serialized or deserialized with it. *)
Theorem union_construction name d schemas :
  (Bob.union name d schemas = Return (UnionRecordType name d schemas)
   <-> forall s, In s schemas -> hasKey s d = Return true)
  /\ (forall u, Bob.union name d schemas = Return u ->
                u = UnionRecordType name d schemas)
  /\ (forall pre s post,
         schemas = pre ++ s :: post ->
         (forall p, In p pre -> hasKey p d = Return true) ->
         hasKey s d = Return false ->
         Bob.union name d schemas
         = Throw (MissingDiscriminator (name_of s) name d))
  /\ ((forall s, In s schemas ->
                 well_formed s = true /\ recordish s = true) ->
      (exists s, In s schemas /\ hasKey s d = Return false) ->
      exists s, In s schemas /\ hasKey s d = Return false
                /\ Bob.union name d schemas
                   = Throw (MissingDiscriminator (name_of s) name d)).
Proof.
  assert (Hfirst : forall pre s post,
             schemas = pre ++ s :: post ->
             (forall p, In p pre -> hasKey p d = Return true) ->
             hasKey s d = Return false ->
             Bob.union name d schemas
             = Throw (MissingDiscriminator (name_of s) name d)).
  { intros pre s post -> Hpre Hs. unfold Bob.union.
    now rewrite check_discriminator_first. }
  repeat split.
  - intros H. apply check_discriminator_passes with (name := name).
    unfold Bob.union in H.
    destruct (Bob.check_discriminator name d schemas) as [[] | e];
      [reflexivity | discriminate].
  - intros H. unfold Bob.union.
    apply (check_discriminator_passes name) in H. now rewrite H.
  - unfold Bob.union.
    destruct (Bob.check_discriminator name d schemas) as [[] | e];
      simpl; congruence.
  - exact Hfirst.
  - intros Hwf Hsome.
    destruct (first_without_key d schemas) as (pre & s & post & Heq & Hpre & Hs).
    + intros s Hin. destruct (Hwf s Hin). now apply hasKey_returns.
    + assumption.
    + exists s. repeat split; [subst; apply in_elt | assumption |].
      now apply (Hfirst pre s post).
Qed.

Lemma union_construction_witness :
  Bob.union "someUnion" "success"
    [Bob.rec "someRec1" [("success", Bob.bool "success" (Some true))];
     Bob.rec "someRec2" [("prop1", Bob.bool "prop1" None)]]
  = Throw (MissingDiscriminator "someRec2" "someUnion" "success").
Proof.
  destruct (union_construction "someUnion" "success"
    [Bob.rec "someRec1" [("success", Bob.bool "success" (Some true))];
     Bob.rec "someRec2" [("prop1", Bob.bool "prop1" None)]])
    as (_ & _ & Hfirst & _).
  apply (Hfirst
           [Bob.rec "someRec1" [("success", Bob.bool "success" (Some true))]]
           (Bob.rec "someRec2" [("prop1", Bob.bool "prop1" None)]) []);
    try reflexivity.
  intros p [<- | []]. reflexivity.
Defined.

(** * Values that are the same data *)

Section SameData.

Lemma returns_agree {A : Type} (c1 c2 : completion A) :
  (forall r, c1 = Return r -> c2 = Return r) ->
  (forall r, c2 = Return r -> c1 = Return r) ->
  returns c1 = returns c2.
Proof.
  intros H12 H21. destruct c1 as [r1 | e1], c2 as [r2 | e2]; simpl; auto.
  - specialize (H12 r1 eq_refl). discriminate.
  - specialize (H21 r2 eq_refl). discriminate.
Qed.

Lemma alike_cases u1 u2 :
  same_data u1 u2 \/ same_data u2 u1 ->
  u1 = u2
  \/ (exists p1 p2,
         u1 = VObj p1 /\ u2 = VObj p2
         /\ (forall k x, Js.lookup k p1 = Some x ->
                         exists y, Js.lookup k p2 = Some y
                                   /\ (same_data x y \/ same_data y x))
         /\ (forall k, Js.lookup k p1 = None -> Js.lookup k p2 = None))
  \/ (exists l1 l2,
         u1 = VArr l1 /\ u2 = VArr l2
         /\ Forall2 (fun a b => same_data a b \/ same_data b a) l1 l2).
Proof.
  intros [H | H]; inversion H as [v | p1 p2 H12 H21 | l1 l2 Hl]; subst;
    auto; right.
  - left. exists p1, p2. repeat split; auto.
    + intros k x Hk. destruct (H12 k x Hk) as (y & Hy & Hxy). eauto.
    + intros k Hk. destruct (Js.lookup k p2) as [y |] eqn:Hy; auto.
      destruct (H21 k y Hy) as (x & Hx & _). congruence.
  - right. exists l1, l2. repeat split; auto.
    eapply Forall2_impl; [| exact Hl]. auto.
  - left. exists p2, p1. repeat split; auto.
    + intros k x Hk. destruct (H21 k x Hk) as (y & Hy & Hxy). eauto.
    + intros k Hk. destruct (Js.lookup k p1) as [y |] eqn:Hy; auto.
      destruct (H12 k y Hy) as (x & Hx & _). congruence.
  - right. exists l2, l1. repeat split; auto.
    apply Forall2_flip in Hl.
    eapply Forall2_impl; [| exact Hl]. simpl. auto.
Qed.

Lemma element_at_alike l1 l2 :
  Forall2 (fun a b => same_data a b \/ same_data b a) l1 l2 ->
  forall i k,
    match Js.element_at l1 i k, Js.element_at l2 i k with
    | Some x, Some y => same_data x y \/ same_data y x
    | None, None => True
    | _, _ => False
    end.
Proof.
  induction 1 as [| a b l1 l2 Hab _ IH]; intros i k; simpl; [exact I |].
  destruct (String.eqb k (Js.index_key i)); [exact Hab | apply IH].
Qed.

(** A read of the same key in the same data gives the same data. *)
Lemma get_alike u1 u2 k x1 :
  same_data u1 u2 \/ same_data u2 u1 ->
  Js.get u1 k = Return x1 ->
  exists x2, Js.get u2 k = Return x2
             /\ (same_data x1 x2 \/ same_data x2 x1).
Proof.
  intros H Hget.
  destruct (alike_cases _ _ H)
    as [<- | [(p1 & p2 & -> & -> & Hsome & Hnone)
             | (l1 & l2 & -> & -> & Hl)]].
  - exists x1. split; [assumption | left; constructor].
  - simpl in *. injection Hget as <-.
    destruct (Js.lookup k p1) as [x |] eqn:Hk.
    + destruct (Hsome k x Hk) as (y & -> & Hxy). eauto.
    + rewrite (Hnone k Hk). eexists. split; [reflexivity |].
      left. constructor.
  - simpl in *. rewrite <- (Forall2_length Hl).
    destruct (String.eqb k "length").
    + injection Hget as <-. eexists. split; [reflexivity |].
      left. constructor.
    + injection Hget as <-. pose proof (element_at_alike _ _ Hl 0 k) as He.
      destruct (Js.element_at l1 0 k), (Js.element_at l2 0 k);
        try contradiction; eexists; (split; [reflexivity |]); simpl; auto.
      left. constructor.
Qed.

Lemma typeof_alike u1 u2 :
  same_data u1 u2 \/ same_data u2 u1 -> Js.typeof u1 = Js.typeof u2.
Proof.
  intros H.
  destruct (alike_cases _ _ H)
    as [<- | [(p1 & p2 & -> & -> & _) | (l1 & l2 & -> & -> & _)]];
    reflexivity.
Qed.

Lemma record_loop_alike {A : Type} (V : A -> value -> completion value)
    u1 u2 K (entries : list (string * A)) :
  same_data u1 u2 \/ same_data u2 u1 ->
  Forall (fun kv => forall x1 x2 r,
              same_data x1 x2 \/ same_data x2 x1 ->
              V (snd kv) x1 = Return r -> V (snd kv) x2 = Return r)
         entries ->
  forall acc r,
    record_loop V u1 K entries acc = Return r ->
    record_loop V u2 K entries acc = Return r.
Proof.
  intros Hu. induction 1 as [| [key validator] rest Hhead _ IH]; simpl;
    intros acc r H; [assumption |].
  destruct (Js.has K key); [now apply IH |].
  destruct (Js.get u1 key) as [x1 | e] eqn:Hget; simpl in H; [| discriminate].
  destruct (get_alike _ _ _ _ Hu Hget) as (x2 & -> & Hx). simpl.
  destruct (V validator x1) as [v | e] eqn:Hv; simpl in H; [| discriminate].
  pose proof (Hhead x1 x2 v Hx Hv) as Hv2. simpl in Hv2.
  rewrite Hv2. simpl.
  destruct (Js.assignable acc key); [now apply IH | discriminate].
Qed.

Lemma Forall2_alike (V : value -> completion value) l1 l2 rs :
  (forall x1 x2 r, same_data x1 x2 \/ same_data x2 x1 ->
                   V x1 = Return r -> V x2 = Return r) ->
  Forall2 (fun a b => same_data a b \/ same_data b a) l1 l2 ->
  Forall2 (fun i v => V i = Return v) l1 rs ->
  Forall2 (fun i v => V i = Return v) l2 rs.
Proof.
  intros HV Hl. revert rs.
  induction Hl as [| a b l1 l2 Hab _ IH]; intros rs Hrs;
    inversion Hrs; subst; constructor; eauto.
Qed.

(** [validate] sees of a value only its data: on two values that are the
    same data it returns the same result, when it returns. *)
Lemma validate_alike t :
  forall u1 u2 K r,
    same_data u1 u2 \/ same_data u2 u1 ->
    validate t u1 K = Return r -> validate t u2 K = Return r.
Proof.
  induction t as [name lit | name lits | name lits | name | base IH
                 | name schema IH | name base schema IHbase IH
                 | name d schemas IH | name item IH] using TypeImpl_ind;
    intros u1 u2 K r Hu H;
    try (destruct (alike_cases _ _ Hu)
           as [<- | [(p1 & p2 & -> & -> & _) | (l1 & l2 & -> & -> & _)]];
         [assumption | simpl in H; discriminate | simpl in H; discriminate]).
  - (* optional *)
    destruct (alike_cases _ _ Hu)
      as [<- | [(p1 & p2 & -> & -> & _) | (l1 & l2 & -> & -> & _)]];
      [assumption | |]; simpl in *; now apply (IH _ _ _ _ Hu).
  - (* record *)
    rewrite validate_record in *. unfold record_validate in *.
    rewrite <- (typeof_alike _ _ Hu).
    destruct (negb (String.eqb (Js.typeof u1) "object")); [discriminate |].
    refine (record_loop_alike _ u1 u2 K schema Hu _ _ _ H).
    rewrite Forall_forall in IH |- *. intros kv Hin x1 x2 v Hx Hv.
    exact (IH kv Hin x1 x2 [] v Hx Hv).
  - (* extension *)
    rewrite validate_extends in *.
    destruct (validate base u1 (Js.keys schema)) as [br | e] eqn:Hb;
      cbn [bind] in H; [| discriminate].
    rewrite (IHbase _ _ _ _ Hu Hb). cbn [bind].
    destruct (validate (RecordType name schema) u1 []) as [sr | e] eqn:Hs;
      cbn [bind] in H; [| discriminate].
    assert (Hs2 : validate (RecordType name schema) u2 [] = Return sr).
    { rewrite validate_record in *. unfold record_validate in *.
      rewrite <- (typeof_alike _ _ Hu).
      destruct (negb (String.eqb (Js.typeof u1) "object")); [discriminate |].
      refine (record_loop_alike _ u1 u2 [] schema Hu _ _ _ Hs).
      rewrite Forall_forall in IH |- *. intros kv Hin x1 x2 v Hx Hv.
      exact (IH kv Hin x1 x2 [] v Hx Hv). }
    rewrite Hs2. exact H.
  - (* union *)
    rewrite validate_union in *. rewrite Forall_forall in IH.
    assert (Hprobe : forall s, In s schemas -> probe d u1 s = probe d u2 s).
    { intros s Hin. unfold probe.
      destruct (schema_keys s) as [ks | e]; [| reflexivity]. cbn [bind].
      f_equal. apply returns_agree; intros v Hv.
      - exact (IH s Hin _ _ _ _ Hu Hv).
      - apply (IH s Hin u2 u1 _ _); [tauto | exact Hv]. }
    apply find_then_Return in H
      as [(pre & s & post & -> & Hpre & Hs & Hfound) | [_ Hnf]];
      [| discriminate].
    rewrite (find_then_first (probe d u2)
               (fun schema => validate schema u2 [])).
    + exact (IH s (in_elt s pre post) _ _ _ _ Hu Hfound).
    + intros p0 Hin. rewrite <- Hprobe by (apply in_or_app; now left).
      now apply Hpre.
    + rewrite <- Hprobe by apply in_elt. exact Hs.
  - (* list *)
    destruct (alike_cases _ _ Hu)
      as [<- | [(p1 & p2 & -> & -> & _) | (l1 & l2 & -> & -> & Hl)]];
      [assumption | simpl in H; discriminate |].
    simpl in *. apply list_loop_Forall2 in H as (rs & -> & Hrs).
    apply Forall2_list_loop.
    refine (Forall2_alike _ l1 l2 rs _ Hl Hrs).
    intros x1 x2 v Hx Hv. exact (IH _ _ _ _ Hx Hv).
Qed.

End SameData.

(** * Idempotence and the round trip *)




(** C7, as the code has it.  With a lossless codec, for every schema and
    every value that is the same data as its validated form (a value
    already in validated form, the order of its properties aside),
    [deserialize(serialize(v))] returns that form.  For a plain schema
    whose fields have ordinary names and any value [validate] accepts,
    [deserialize(serialize(v))] returns the validated form of [v]: the
    value pruned of what the schema does not declare, with [null]
    absences turned into [undefined]. *)
Theorem round_trip_validated codec t v :
  lossless codec ->
  (forall r, validate t v [] = Return r -> same_data v r ->
             rt codec t v = Return r)
  /\ (plain t = true -> ordinary_keys t = true ->
      forall r, validate t v [] = Return r -> rt codec t v = Return r).
Proof.
  intros Hcodec.
  assert (Hrt : forall r, validate t v [] = Return r ->
                          validate t r [] = Return r ->
                          rt codec t v = Return r).
  { intros r H Hagain. unfold rt, serialize, deserialize.
    rewrite H. cbn [bind]. rewrite Hcodec. cbn [bind].
    rewrite Hagain. reflexivity. }
  split.
  - intros r H Hsame. apply Hrt; [assumption |].
    exact (validate_alike t v r [] r (or_introl Hsame) H).
  - intros Hplain Hord r H. apply Hrt; [assumption |].
    exact (plain_idempotent t Hplain Hord v [] r H).
Qed.

Lemma structural_codec_lossless : lossless structural_codec.
Proof. intros v. reflexivity. Qed.

Lemma round_trip_validated_witness :
  rt structural_codec Examples.user Examples.user_pruned
  = Return Examples.user_pruned
  /\ rt structural_codec Examples.user Examples.user_with_email
     = Return Examples.user_pruned.
Proof.
  split.
  - apply (proj1 (round_trip_validated structural_codec Examples.user
                    Examples.user_pruned (fun v => eq_refl))).
    + reflexivity.
    + constructor.
  - apply (proj2 (round_trip_validated structural_codec Examples.user
                    Examples.user_with_email (fun v => eq_refl)));
      reflexivity.
Defined.

(** C7 as stated fails on a record given an undeclared field: the value
    is accepted and the round trip returns it without that field. *)
Lemma round_trip_drops_fields :
  lossless structural_codec
  /\ returns (validate Examples.user Examples.user_with_email []) = true
  /\ rt structural_codec Examples.user Examples.user_with_email
     = Return Examples.user_pruned
  /\ rt structural_codec Examples.user Examples.user_with_email
     <> Return Examples.user_with_email.
Proof.
  repeat split; try reflexivity; try discriminate.
Qed.

(** * Literal numbers *)

Section Numbers.

Lemma same_value_zero_spec x y :
  Js.same_value_zero x y = true <-> SameValueZero x y.
Proof.
  unfold SameValueZero, NaN.
  destruct x, y; simpl; split; intros H; auto;
    try (destruct H as [[? ?] | H]; try discriminate; assumption).
Qed.

Lemma includes_number_spec l n :
  Js.includes_number l n = true <-> exists x, In x l /\ SameValueZero n x.
Proof.
  unfold Js.includes_number. rewrite existsb_exists.
  split; intros [x [Hin Hx]]; exists x; split; auto;
    now apply same_value_zero_spec.
Qed.

End Numbers.

(** C9, as the code has it.  The literal set of a [num] is searched with
    [includes], that is by SameValueZero: IEEE equality, and NaN the same
    as NaN.  With a non-empty set, [validate] returns the number when some
    literal is the same value and throws the literal failure otherwise. *)
Theorem num_literal_membership name literals n K :
  literals <> [] ->
  ((exists x, In x literals /\ SameValueZero n x) ->
   validate (Bob.num name literals) (VNum n) K = Return (VNum n))
  /\ (~ (exists x, In x literals /\ SameValueZero n x) ->
      validate (Bob.num name literals) (VNum n) K
      = Throw (LiteralMismatch name (map VNum literals) (VNum n))).
Proof.
  intros Hne. simpl.
  destruct literals as [| l0 rest]; [contradiction |].
  change (0 <? List.length (l0 :: rest))%nat with true. cbv iota.
  split; intros H.
  - apply includes_number_spec in H. now rewrite H.
  - destruct (Js.includes_number (l0 :: rest) n) eqn:Hinc; [| reflexivity].
    apply includes_number_spec in Hinc. contradiction.
Qed.

Lemma num_literal_membership_witness :
  validate (Bob.num "x" [NaN]) (VNum NaN) [] = Return (VNum NaN).
Proof.
  destruct (num_literal_membership "x" [NaN] NaN []) as [Hin _].
  - discriminate.
  - apply Hin. exists NaN. split; [now left | left; split; reflexivity].
Defined.

(** C9 as stated fails on NaN: no literal of [num('x', NaN)] is equal to
    NaN by IEEE equality, and [validate(NaN)] returns NaN all the same. *)
Lemma nan_literal_accepts_nan :
  existsb (Js.strict_equals NaN) [NaN] = false
  /\ validate Examples.x_nan (VNum NaN) [] = Return (VNum NaN).
Proof. split; reflexivity. Qed.

(** * The ignored keys of an extension *)

(** C10.  [validate] of an extension takes no account of the ignored keys
    it is called with.  So the probe of a union on a branch that is an
    extension is a validation in full: a union whose first branch is an
    extension returns what the extension returns when that returns, and
    goes on to the other branches when it throws. *)
Theorem extension_discards_ignored_keys name base schema v K :
  validate (Bob.extend name base schema) v K
  = validate (Bob.extend name base schema) v []
  /\ (forall d,
         probe d v (Bob.extend name base schema)
         = Return (returns (validate (Bob.extend name base schema) v [])))
  /\ (forall uname d rest,
         validate (UnionRecordType uname d
                     (Bob.extend name base schema :: rest)) v K
         = if returns (validate (Bob.extend name base schema) v [])
           then validate (Bob.extend name base schema) v []
           else validate (UnionRecordType uname d rest) v K).
Proof.
  split; [reflexivity |]. split; [reflexivity |].
  intros uname d rest. rewrite !validate_union.
  change (validate (UnionRecordType uname d rest) v K)
    with (Js.find_then (probe d v) (fun schema => validate schema v [])
            (Throw (NoMatchingBranch uname v)) rest).
  cbn [Js.find_then]. rewrite probe_extends. cbn [bind].
  unfold probe_succeeds.
  now destruct (validate (Bob.extend name base schema) v
                  (minus (own_field_names (Bob.extend name base schema)) d)).
Qed.

(** * Further properties of the validators *)

(** ** Scalars *)


(** X2.  No [validate] of any class returns [null]: where [null] is
    accepted at all, it comes back as [undefined]. *)
Theorem validate_never_returns_null t u K :
  validate t u K <> Return VNull.
Proof.
  intros H. now apply (validate_not_null t u K VNull H).
Qed.

(** ** Lists *)

(** X3.  [validate] of a list returns exactly on arrays whose items the
    item schema all accepts, and then returns the array of the validated
    items, one per item and in the same order. *)
Theorem list_validate_elementwise name item u K r :
  validate (Bob.list name item) u K = Return r
  <-> exists items rs,
        u = VArr items /\ r = VArr rs
        /\ List.length rs = List.length items
        /\ Forall2 (fun i v => validate item i [] = Return v) items rs.
Proof.
  split.
  - simpl. destruct u; try discriminate. intros H.
    apply list_loop_Forall2 in H as (rs & -> & Hrs).
    exists items, rs. repeat split; auto.
    symmetry. eapply Forall2_length; eassumption.
  - intros (items & rs & -> & -> & _ & Hrs). simpl.
    apply (Forall2_list_loop (fun i => validate item i []) items rs Hrs []).
Qed.

(** X4.  A list fails fast: the first item the item schema rejects decides
    the failure, whatever comes after it. *)
Theorem list_fail_fast name item pre x post K e :
  Forall (fun i => returns (validate item i []) = true) pre ->
  validate item x [] = Throw e ->
  validate (Bob.list name item) (VArr (pre ++ x :: post)) K = Throw e.
Proof.
  intros Hpre Hx. simpl. generalize (@nil value) as acc.
  induction Hpre as [| i pre Hi _ IH]; intros acc; simpl.
  - now rewrite Hx.
  - destruct (validate item i []) as [v | e']; [| discriminate]. simpl.
    apply IH.
Qed.

Lemma list_fail_fast_witness :
  validate (Bob.list "someList" (Bob.num "someListItem" []))
           (VArr ([Examples.one] ++ VStr "2" :: [VBool true])) []
  = Throw (TypeMismatch "someListItem" "number" (VStr "2")).
Proof.
  apply (list_fail_fast "someList" (Bob.num "someListItem" [])
           [Examples.one] (VStr "2") [VBool true] []).
  - repeat constructor.
  - reflexivity.
Defined.


Lemma list_validate_elementwise_witness :
  exists items rs,
    VArr [Examples.one; Examples.two] = VArr items
    /\ VArr [Examples.one; Examples.two] = VArr rs
    /\ List.length rs = List.length items
    /\ Forall2 (fun i v => validate (Bob.num "someCount" []) i [] = Return v)
               items rs.
Proof.
  apply (proj1 (list_validate_elementwise "someList"
                  (Bob.num "someCount" [])
                  (VArr [Examples.one; Examples.two]) []
                  (VArr [Examples.one; Examples.two]))).
  reflexivity.
Defined.

(** ** Records *)

Section RecordAcceptance.
Context {A : Type}.
Variable V : A -> value -> completion value.

Lemma record_loop_returns u K (entries : list (string * A)) :
  ~ In "__proto__" (Js.keys entries) ->
  forall acc,
    returns (record_loop V u K entries (VObj acc)) = true
    <-> forall k f, In (k, f) entries -> Js.has K k = false ->
                    returns (x <- Js.get u k ;; V f x) = true.
Proof.
  induction entries as [| [key validator] rest IH]; simpl; intros Hord acc.
  - split; [intros _ k f [] | reflexivity].
  - specialize (IH ltac:(tauto)).
    destruct (Js.has K key) eqn:Hk.
    + rewrite IH. split.
      * intros H k f [Heq | Hin] Hhas; [| now apply H].
        injection Heq as <- <-. congruence.
      * intros H k f Hin. apply H. now right.
    + destruct (Js.get u key) as [x | e] eqn:Hget; simpl.
      * destruct (V validator x) as [v | e] eqn:Hv; simpl.
        -- rewrite set_ordinary by (intros ->; tauto).
           rewrite IH. split.
           ++ intros H k f [Heq | Hin] Hhas; [| now apply H].
              injection Heq as <- <-. rewrite Hget. simpl. now rewrite Hv.
           ++ intros H k f Hin. apply H. now right.
        -- split; [discriminate |]. intros H.
           specialize (H key validator (or_introl eq_refl) Hk).
           rewrite Hget in H. simpl in H. now rewrite Hv in H.
      * split; [discriminate |]. intros H.
        specialize (H key validator (or_introl eq_refl) Hk).
        now rewrite Hget in H.
Qed.

Lemma record_loop_fail_first u K pre key validator post e :
  ~ In "__proto__" (Js.keys pre) ->
  (forall k f, In (k, f) pre ->
               Js.has K k = true
               \/ returns (x <- Js.get u k ;; V f x) = true) ->
  Js.has K key = false ->
  (x <- Js.get u key ;; V validator x) = Throw e ->
  forall acc,
    record_loop V u K (pre ++ (key, validator) :: post) (VObj acc) = Throw e.
Proof.
  intros Hord Hpre Hkey He.
  induction pre as [| [k f] pre IH]; simpl; intros acc.
  - rewrite Hkey. destruct (Js.get u key) as [x | e']; simpl in *.
    + now rewrite He.
    + exact He.
  - simpl in Hord. destruct (Js.has K k) eqn:Hk.
    + apply IH; [tauto |]. intros k' f' Hin. apply Hpre. now right.
    + destruct (Hpre k f (or_introl eq_refl)) as [Hskip | Hok];
        [congruence |].
      destruct (Js.get u k) as [x | e']; simpl in *; [| discriminate].
      destruct (V f x) as [v | e']; simpl in *; [| discriminate].
      rewrite set_ordinary by (intros ->; tauto).
      apply IH; [tauto |]. intros k' f' Hin. apply Hpre. now right.
Qed.

(** Two inputs on which every field the loop visits validates alike give
    the same loop. *)
Lemma record_loop_cong u1 u2 K (entries : list (string * A)) :
  (forall k f, In (k, f) entries -> Js.has K k = false ->
               (x <- Js.get u1 k ;; V f x) = (x <- Js.get u2 k ;; V f x)) ->
  forall acc,
    record_loop V u1 K entries acc = record_loop V u2 K entries acc.
Proof.
  induction entries as [| [key validator] rest IH]; simpl; intros Hsame acc;
    [reflexivity |].
  destruct (Js.has K key) eqn:Hk.
  - apply IH. intros k f Hin. apply Hsame. now right.
  - specialize (Hsame key validator (or_introl eq_refl) Hk) as Hhead.
    assert (Hrest : forall acc',
               record_loop V u1 K rest acc' = record_loop V u2 K rest acc').
    { apply IH. intros k f Hin. apply Hsame. now right. }
    destruct (Js.get u1 key) as [x1 | e1], (Js.get u2 key) as [x2 | e2];
      simpl in *.
    + destruct (V validator x1) as [v1 | e1], (V validator x2) as [v2 | e2];
        simpl; try discriminate.
      * injection Hhead as <-.
        destruct (Js.assignable acc key); [apply Hrest | reflexivity].
      * assumption.
    + now rewrite Hhead.
    + now rewrite <- Hhead.
    + assumption.
Qed.

End RecordAcceptance.

(** X5.  A record with no field named [__proto__] accepts a value exactly
    when the value passes the guard ([typeof] is ['object']) and every
    field of the table that is not ignored validates what the read
    [u[key]] gives: the value's own property, or else what its prototype
    chain has under that name. *)
Theorem record_accepts_iff name schema u K :
  ~ In "__proto__" (Js.keys schema) ->
  returns (validate (Bob.rec name schema) u K) = true
  <-> Js.typeof u = "object"
      /\ forall k f, In (k, f) schema -> Js.has K k = false ->
                     returns (x <- Js.get u k ;; validate f x []) = true.
Proof.
  intros Hord. unfold Bob.rec. rewrite validate_record.
  unfold record_validate.
  destruct (String.eqb_spec (Js.typeof u) "object") as [Hty | Hty]; simpl.
  - rewrite record_loop_returns by assumption. tauto.
  - split; [discriminate | tauto].
Qed.

Lemma record_accepts_iff_witness :
  returns (validate Examples.user Examples.user_with_email []) = true.
Proof.
  apply (proj2 (record_accepts_iff "user"
                  [("id", Bob.str "id" []);
                   ("username", Bob.str "username" [])]
                  Examples.user_with_email []
                  ltac:(simpl; intuition discriminate))).
  split; [reflexivity |].
  intros k f [Heq | [Heq | []]] _; injection Heq as <- <-; reflexivity.
Defined.

(** After a field named [__proto__] the assignment of a validated value
    can itself fail: the result has the validated typed array as its
    prototype, whose [length] is a getter without a setter.  Both fields
    validate what is read at their key, and the record throws the
    [TypeError] of the assignment. *)
Lemma record_assignment_fails :
  returns (x <- Js.get Examples.bytes_and_length "__proto__" ;;
           validate (Bob.u8array "p") x []) = true
  /\ returns (x <- Js.get Examples.bytes_and_length "length" ;;
              validate (Bob.num "n" []) x []) = true
  /\ validate Examples.proto_bytes Examples.bytes_and_length []
     = Throw TypeError.
Proof. repeat split. Qed.

(** X6.  A record fails fast in table order: when the fields before [key]
    (none of them named [__proto__]) are ignored or validate, and [key] is
    not ignored and its read or its validation throws, that is what the
    record throws; the fields after it are not looked at. *)
Theorem record_fail_first name pre key validator post u K e :
  Js.typeof u = "object" ->
  ~ In "__proto__" (Js.keys pre) ->
  (forall k f, In (k, f) pre ->
               Js.has K k = true
               \/ returns (x <- Js.get u k ;; validate f x []) = true) ->
  Js.has K key = false ->
  (x <- Js.get u key ;; validate validator x []) = Throw e ->
  validate (Bob.rec name (pre ++ (key, validator) :: post)) u K = Throw e.
Proof.
  intros Hty Hord Hpre Hkey He. unfold Bob.rec.
  rewrite validate_record. unfold record_validate. rewrite Hty. simpl.
  now apply (record_loop_fail_first
               (fun validator propValue => validate validator propValue [])).
Qed.

Lemma record_fail_first_witness :
  validate (Bob.rec "someRec"
              ([("prop", Bob.str "prop" [])]
               ++ ("prop2", Bob.str "prop2" [])
               :: [("prop3", Bob.str "prop3" [])]))
           (VObj [("prop", VStr "hello world")]) []
  = Throw (TypeMismatch "prop2" "string" VUndefined).
Proof.
  apply (record_fail_first "someRec" [("prop", Bob.str "prop" [])]
           "prop2" (Bob.str "prop2" []) [("prop3", Bob.str "prop3" [])]).
  - reflexivity.
  - simpl. intuition discriminate.
  - intros k f [Heq | []]. injection Heq as <- <-. now right.
  - reflexivity.
  - reflexivity.
Defined.

(** X7.  Absence of an optional field: for a record whose field [k] is
    optional and an input in which a read of [k] gives [undefined] (the
    key is neither set nor inherited from [Object.prototype]), the input
    with [k] set to [null], or set to [undefined], validates exactly as
    the input itself. *)
Theorem optional_field_absence name schema k props K :
  (forall f, In (k, f) schema -> exists b, f = OptionalType b) ->
  Js.get (VObj props) k = Return VUndefined ->
  validate (Bob.rec name schema) (VObj ((k, VNull) :: props)) K
  = validate (Bob.rec name schema) (VObj props) K
  /\ validate (Bob.rec name schema) (VObj ((k, VUndefined) :: props)) K
     = validate (Bob.rec name schema) (VObj props) K.
Proof.
  intros Hopt Habsent. unfold Bob.rec. rewrite !validate_record.
  unfold record_validate. simpl Js.typeof. simpl negb.
  split; apply record_loop_cong; intros k' f Hin _;
    (destruct (String.eqb_spec k' k) as [-> | Hne];
     [ rewrite Habsent; destruct (Hopt f Hin) as [b ->];
       simpl; rewrite String.eqb_refl; reflexivity
     | simpl; apply String.eqb_neq in Hne; rewrite Hne; reflexivity ]).
Qed.

Lemma optional_field_absence_witness :
  validate (Bob.rec "result"
              [("errorCode", Bob.optional (Bob.num "errorCode" []))])
           (VObj [("errorCode", VNull)]) []
  = validate (Bob.rec "result"
                [("errorCode", Bob.optional (Bob.num "errorCode" []))])
             (VObj []) [].
Proof.
  apply (optional_field_absence "result"
           [("errorCode", Bob.optional (Bob.num "errorCode" []))]
           "errorCode" [] []).
  - intros f [Heq | []]. injection Heq as <-. now eexists.
  - reflexivity.
Defined.

(** ** What a schema reads of its input *)

Section ReadsOnly.

Lemma validate_reads_mentioned t :
  forall p1 p2 K r,
    (forall k, In k (mentioned_keys t) -> Js.lookup k p1 = Js.lookup k p2) ->
    validate t (VObj p1) K = Return r ->
    validate t (VObj p2) K = Return r.
Proof.
  induction t as [name lit | name lits | name lits | name | base IH
                 | name schema IH | name base schema IHbase IH
                 | name d schemas IH | name item IH] using TypeImpl_ind;
    intros p1 p2 K r Hagree H; try discriminate.
  - (* optional *)
    simpl in *. now apply (IH p1 p2).
  - (* record *)
    rewrite validate_record in *. rewrite <- H. symmetry.
    apply record_validate_ext; [reflexivity | | reflexivity].
    intros k Hk _. simpl. now rewrite (Hagree k Hk).
  - (* extension *)
    rewrite validate_extends in *.
    destruct (validate base (VObj p1) (Js.keys schema)) as [br | e] eqn:Hb;
      cbn [bind] in H; [| discriminate].
    rewrite (IHbase p1 p2 _ br) by
      (try assumption; intros k Hk; apply Hagree; simpl;
       apply in_or_app; now left).
    cbn [bind].
    assert (Hown : validate (RecordType name schema) (VObj p2) []
                   = validate (RecordType name schema) (VObj p1) []).
    { rewrite !validate_record.
      apply record_validate_ext; [reflexivity | | reflexivity].
      intros k Hk _. simpl. rewrite (Hagree k); [reflexivity |].
      simpl. apply in_or_app. now right. }
    now rewrite Hown.
  - (* union *)
    rewrite validate_union in *. rewrite Forall_forall in IH.
    assert (Hsub : forall s, In s schemas ->
                     forall k, In k (mentioned_keys s) ->
                               Js.lookup k p1 = Js.lookup k p2).
    { intros s Hin k Hk. apply Hagree. simpl. apply in_flat_map. eauto. }
    assert (Hprobe : forall s, In s schemas ->
                       probe d (VObj p2) s = probe d (VObj p1) s).
    { intros s Hin. unfold probe.
      destruct (schema_keys s) as [ks | e]; [| reflexivity]. cbn [bind].
      f_equal. apply returns_agree; intros r'.
      - apply (IH s Hin p2 p1). intros k Hk. symmetry.
        now apply (Hsub s Hin).
      - apply (IH s Hin p1 p2). exact (Hsub s Hin). }
    apply find_then_Return in H
      as [(pre & s & post & -> & Hpre & Hs & Hfound) | [_ Hnf]];
      [| discriminate].
    rewrite find_then_first.
    + apply (IH s (in_elt s pre post) p1 p2); [| assumption].
      exact (Hsub s (in_elt s pre post)).
    + intros p Hin. rewrite Hprobe by (apply in_or_app; now left).
      now apply Hpre.
    + rewrite Hprobe by apply in_elt. assumption.
Qed.

End ReadsOnly.

(** X8.  A schema reads of an object only the keys its field tables name:
    two objects that agree on those keys are accepted alike, with the same
    result.  Whatever else the input carries has no influence. *)
Theorem validate_reads_only_mentioned_keys t p1 p2 K r :
  (forall k, In k (mentioned_keys t) -> Js.lookup k p1 = Js.lookup k p2) ->
  validate t (VObj p1) K = Return r <-> validate t (VObj p2) K = Return r.
Proof.
  intros Hagree. split; apply validate_reads_mentioned; [assumption |].
  intros k Hk. symmetry. now apply Hagree.
Qed.

Lemma validate_reads_only_mentioned_keys_witness :
  validate Examples.user Examples.user_with_email [] = Return Examples.user_pruned
  <-> validate Examples.user Examples.user_pruned [] = Return Examples.user_pruned.
Proof.
  apply (validate_reads_only_mentioned_keys Examples.user
           [("id", VStr "1"); ("username", VStr "a"); ("email", VStr "x@y.com")]
           [("id", VStr "1"); ("username", VStr "a")] []
           Examples.user_pruned).
  intros k [<- | [<- | []]]; reflexivity.
Defined.

(** ** The discriminator *)

Section Discriminator.

Local Abbreviation V :=
  (fun (validator : TypeImpl) (propValue : value) =>
     validate validator propValue []).

Lemma hasKey_every name d schemas k :
  hasKey (UnionRecordType name d schemas) k = Return true ->
  forall s, In s schemas -> hasKey s k = Return true.
Proof.
  simpl. induction schemas as [| x rest IH]; intros H s Hin;
    [contradiction |].
  destruct (hasKey x k) as [[|] | e] eqn:Hx; simpl in H; try discriminate.
  destruct Hin as [<- | Hin]; [assumption | now apply IH].
Qed.

Lemma hasKey_present t :
  well_formed t = true -> ordinary_keys t = true -> recordish t = true ->
  forall k u K r,
    hasKey t k = Return true ->
    (is_record t = true -> Js.has K k = false) ->
    validate t u K = Return r ->
    exists props, r = VObj props /\ In k (Js.keys props).
Proof.
  induction t as [name lit | name lits | name lits | name | base IH
                 | name schema IH | name base schema IHbase IH
                 | name d schemas IH | name item IH] using TypeImpl_ind;
    intros Hwf Hord Hrec k u K r Hkey Hk H; try discriminate.
  - (* record *)
    simpl in Hwf. apply andb_true_iff in Hwf as [Hd _].
    apply distinct_NoDup in Hd.
    destruct (ordinary_record _ _ Hord) as [Hp _].
    rewrite validate_record, record_validate_collect in H by assumption.
    destruct (negb (String.eqb (Js.typeof u) "object")); [discriminate |].
    destruct (record_collect V u K schema) as [vs | e] eqn:Hvs;
      cbn [bind] in H; [| discriminate].
    injection H as <-. exists vs. split; [reflexivity |].
    rewrite (record_collect_keys _ _ _ _ _ Hvs). apply filter_In.
    simpl in Hkey. injection Hkey as Hkey.
    apply includes_string_In in Hkey. split; [assumption |].
    now rewrite (Hk eq_refl).
  - (* extension *)
    simpl in Hwf. apply andb_true_iff in Hwf as [Hwf _].
    apply andb_true_iff in Hwf as [Hwf Hd].
    apply andb_true_iff in Hwf as [Hbrec Hbwf].
    apply distinct_NoDup in Hd.
    destruct (ordinary_extends _ _ _ Hord) as (Hordb & Hp & _).
    rewrite validate_extends in H.
    destruct (validate base u (Js.keys schema)) as [br | e] eqn:Hb;
      cbn [bind] in H; [| discriminate].
    destruct (validate (RecordType name schema) u []) as [sr | e] eqn:Hs;
      cbn [bind] in H; [| discriminate].
    injection H as <-.
    destruct (field_pruning base Hbwf Hordb Hbrec _ _ _ Hb)
      as (bp & -> & _ & _).
    destruct (validate_object_NoDup _ _ _ _ Hb) as [_ Hbp].
    rewrite validate_record, record_validate_collect in Hs by assumption.
    destruct (negb (String.eqb (Js.typeof u) "object")); [discriminate |].
    destruct (record_collect V u [] schema) as [svs | e] eqn:Hsvs;
      cbn [bind] in Hs; [| discriminate].
    injection Hs as <-.
    assert (Hsk : Js.keys svs = Js.keys schema).
    { rewrite (record_collect_keys _ _ _ _ _ Hsvs).
      apply forallb_filter_id. apply forallb_forall. reflexivity. }
    assert (Hsp : ~ In "__proto__" (Js.keys svs)) by now rewrite Hsk.
    rewrite spread_ordinary by assumption.
    eexists. split; [reflexivity |]. apply keys_define_all. rewrite Hsk.
    simpl in Hkey.
    destruct (Js.includes_string (Js.keys schema) k) eqn:Hown.
    + right. now apply includes_string_In.
    + left.
      destruct (IHbase Hbwf Hordb Hbrec k u (Js.keys schema) _ Hkey
                  (fun _ => Hown) Hb) as (bp' & Heq & Hin).
      injection Heq as <-.
      apply keys_define_all. now right.
  - (* union *)
    rewrite validate_union in H.
    apply find_then_Return in H
      as [(pre & s & post & -> & _ & _ & Hfound) | [_ Hnf]];
      [| discriminate].
    destruct (well_formed_union _ _ _ Hwf s (in_elt s pre post))
      as (Hsrec & Hswf & _).
    simpl in Hord. rewrite forallb_forall in Hord.
    rewrite Forall_forall in IH.
    apply (IH s (in_elt s pre post) Hswf (Hord s (in_elt s pre post))
             Hsrec k u [] r); auto.
    eapply hasKey_every; [eassumption | apply in_elt].
Qed.

(** The probe of a record looks at the discriminator alone. *)
Lemma record_loop_discriminator u K d (entries : list (string * TypeImpl)) :
  NoDup (Js.keys entries) ->
  (forall k, In k (Js.keys entries) -> k <> d -> Js.has K k = true) ->
  Js.has K d = false ->
  forall acc,
    Js.assignable acc d = true ->
    returns (record_loop V u K entries acc)
    = match Js.lookup d entries with
      | Some f => returns (x <- Js.get u d ;; validate f x [])
      | None => true
      end.
Proof.
  induction entries as [| [key validator] rest IH]; simpl;
    intros Hnd Hskip Hd acc Hacc; [reflexivity |].
  apply NoDup_cons_iff in Hnd as [Hfresh Hnd].
  destruct (String.eqb_spec d key) as [<- | Hne].
  - rewrite Hd.
    destruct (Js.get u d) as [x | e]; simpl; [| reflexivity].
    destruct (validate validator x []) as [v | e]; simpl; [| reflexivity].
    rewrite Hacc.
    assert (Hrest : forall l acc',
               (forall k, In k (Js.keys l) -> Js.has K k = true) ->
               record_loop V u K l acc' = Return acc').
    { induction l as [| [k f] l IHl]; simpl; intros acc' Hl; [reflexivity |].
      rewrite (Hl k) by now left. apply IHl. intros k' Hk'. apply Hl.
      now right. }
    rewrite Hrest; [reflexivity |].
    intros k Hk. apply Hskip; [now right |]. intros ->. contradiction.
  - rewrite (Hskip key) by auto. apply IH; auto.
Qed.

End Discriminator.

(** X9.  What the discriminator check of the union constructor buys:
    when [hasKey(k)] holds of a well-formed record-like schema none of
    whose tables has a field named [__proto__], every value the schema
    accepts comes back as an object that has the property [k].  So every
    value such a union returns carries the discriminator. *)
Theorem hasKey_field_present t k u r :
  well_formed t = true -> ordinary_keys t = true -> recordish t = true ->
  hasKey t k = Return true ->
  validate t u [] = Return r ->
  exists props x, r = VObj props /\ Js.lookup k props = Some x.
Proof.
  intros Hwf Hord Hrec Hkey H.
  destruct (hasKey_present t Hwf Hord Hrec k u [] r Hkey
              (fun _ => eq_refl) H)
    as (props & -> & Hin).
  destruct (Js.lookup k props) as [x |] eqn:Hlk; [eauto |].
  apply lookup_None in Hlk. contradiction.
Qed.

Lemma hasKey_field_present_witness :
  exists props x,
    Examples.greeting = VObj props /\ Js.lookup "kind" props = Some x.
Proof.
  apply (hasKey_field_present Examples.someUnion "kind" Examples.greeting
           Examples.greeting); reflexivity.
Defined.

(** X10.  How a union chooses among records: the probe of a record branch
    that declares the discriminator succeeds exactly when the value passes
    the guard and the validator of the discriminator field accepts what is
    read at the discriminator; no other field of the branch or of the
    value takes part in the choice. *)
Theorem probe_record_discriminator name schema d f u :
  NoDup (Js.keys schema) -> Js.lookup d schema = Some f ->
  probe d u (Bob.rec name schema)
  = Return (String.eqb (Js.typeof u) "object"
            && returns (x <- Js.get u d ;; validate f x [])).
Proof.
  intros Hnd Hlk. unfold Bob.rec.
  assert (Hin : In d (Js.keys schema)).
  { apply lookup_Some_In in Hlk. apply (in_map fst) in Hlk. exact Hlk. }
  rewrite probe_record by assumption. f_equal.
  unfold probe_succeeds, own_field_names. simpl. unfold record_validate.
  destruct (String.eqb (Js.typeof u) "object"); simpl; [| reflexivity].
  rewrite (record_loop_discriminator u _ d schema Hnd).
  - now rewrite Hlk.
  - intros k Hk Hne. apply has_In. unfold minus. apply filter_In.
    split; [assumption |]. apply negb_true_iff. now apply String.eqb_neq.
  - apply has_false. unfold minus. intros Hd. apply filter_In in Hd as [_ Hd].
    now rewrite String.eqb_refl in Hd.
  - reflexivity.
Qed.

Lemma probe_record_discriminator_witness :
  probe "kind" (VObj [("kind", VStr "greetings")]) Examples.greetings
  = Return true.
Proof.
  apply (probe_record_discriminator "greetings"
           [("kind", Bob.str "kind" ["greetings"]);
            ("baz", Bob.bool "baz" None)]
           "kind" (Bob.str "kind" ["greetings"])
           (VObj [("kind", VStr "greetings")])).
  - repeat constructor; simpl; intuition discriminate.
  - reflexivity.
Defined.

(** ** [validateProperty] *)

Section ValidateProperty.

Lemma validateProperty_for_of key v (l : list TypeImpl) :
  forall result last,
    (forall s, In s l -> returns (validateProperty s key v) = true) ->
    (fix for_of (l : list TypeImpl) (result : value) : completion value :=
       match l with
       | [] => Return result
       | subschema :: rest =>
           r <- validateProperty subschema key v ;;
           for_of rest r
       end) (l ++ [last]) result
    = validateProperty last key v.
Proof.
  induction l as [| s l IH]; simpl; intros result last Hall.
  - now destruct (validateProperty last key v).
  - specialize (Hall s (or_introl eq_refl)) as Hs.
    destruct (validateProperty s key v) as [r | e]; [| discriminate].
    simpl. apply IH. intros p Hp. apply Hall. now right.
Qed.

Lemma validateProperty_for_of_throws key v pre s post e :
  (forall p, In p pre -> returns (validateProperty p key v) = true) ->
  validateProperty s key v = Throw e ->
  forall result,
    (fix for_of (l : list TypeImpl) (result : value) : completion value :=
       match l with
       | [] => Return result
       | subschema :: rest =>
           r <- validateProperty subschema key v ;;
           for_of rest r
       end) (pre ++ s :: post) result
    = Throw e.
Proof.
  intros Hpre Hs. induction pre as [| p pre IH]; simpl; intros result.
  - now rewrite Hs.
  - specialize (Hpre p (or_introl eq_refl)) as Hp.
    destruct (validateProperty p key v) as [r | e']; [| discriminate].
    simpl. apply IH. intros q Hq. apply Hpre. now right.
Qed.

End ValidateProperty.

(** X11.  [validateProperty] of a union asks every subschema and keeps the
    last answer: when all the subschemas before the last accept the
    property, the union answers what the last subschema answers, and the
    earlier answers are dropped; the first subschema that throws decides
    the failure; a union without subschemas answers [undefined]. *)
Theorem validateProperty_union_last name d key v :
  (forall schemas last,
      (forall s, In s schemas -> returns (validateProperty s key v) = true) ->
      validateProperty (UnionRecordType name d (schemas ++ [last])) key v
      = validateProperty last key v)
  /\ (forall pre s post e,
         (forall p, In p pre -> returns (validateProperty p key v) = true) ->
         validateProperty s key v = Throw e ->
         validateProperty (UnionRecordType name d (pre ++ s :: post)) key v
         = Throw e)
  /\ validateProperty (UnionRecordType name d []) key v = Return VUndefined.
Proof.
  split; [| split; [| reflexivity]].
  - intros schemas last Hall. now apply validateProperty_for_of.
  - intros pre s post e Hpre Hs. now apply validateProperty_for_of_throws.
Qed.

Lemma validateProperty_union_last_witness :
  validateProperty
    (UnionRecordType "someUnion" "kind" ([Examples.hello] ++ [Examples.greetings]))
    "kind" (VStr "hello")
  = validateProperty Examples.greetings "kind" (VStr "hello")
  /\ validateProperty
       (UnionRecordType "someUnion" "kind"
          ([] ++ Examples.hello :: [Examples.greetings]))
       "kind" (VStr "greetings")
     = Throw (LiteralMismatch "kind" [VStr "hello"] (VStr "greetings")).
Proof.
  destruct (validateProperty_union_last "someUnion" "kind" "kind"
              (VStr "hello")) as (Hlast & _ & _).
  destruct (validateProperty_union_last "someUnion" "kind" "kind"
              (VStr "greetings")) as (_ & Hthrow & _).
  split.
  - apply (Hlast [Examples.hello] Examples.greetings).
    intros s [<- | []]. reflexivity.
  - apply (Hthrow [] Examples.hello [Examples.greetings]).
    + intros p [].
    + reflexivity.
Defined.

(** X12.  [validate] of a record is [validateProperty] field by field:
    when a record with no field named [__proto__] accepts a value, each
    field of the result is what [validateProperty] answers for that key on
    what a read of the input gives there. *)
Theorem validateProperty_record_agrees name schema u r k f :
  NoDup (Js.keys schema) -> ~ In "__proto__" (Js.keys schema) ->
  validate (Bob.rec name schema) u [] = Return r ->
  In (k, f) schema ->
  exists x w, Js.get u k = Return x
              /\ validateProperty (Bob.rec name schema) k x = Return w
              /\ Js.get r k = Return w.
Proof.
  intros Hnd Hp H Hin. unfold Bob.rec in *.
  rewrite validate_record, record_validate_collect in H by assumption.
  destruct (negb (String.eqb (Js.typeof u) "object")); [discriminate |].
  destruct (record_collect _ u [] schema) as [vs | e] eqn:Hvs;
    cbn [bind] in H; [| discriminate].
  injection H as <-.
  destruct (record_collect_In _ u [] schema vs k f Hvs Hin eq_refl)
    as (x & w & Hget & Hw & Hinw).
  exists x, w. split; [assumption |]. split.
  - simpl. now rewrite (In_lookup k f schema Hnd Hin).
  - simpl. rewrite (In_lookup k w vs); [reflexivity | | assumption].
    exact (record_collect_NoDup _ u [] schema vs Hnd Hvs).
Qed.

Lemma validateProperty_record_agrees_witness :
  exists x w,
    Js.get Examples.user_with_email "username" = Return x
    /\ validateProperty Examples.user "username" x = Return w
    /\ Js.get Examples.user_pruned "username" = Return w.
Proof.
  apply (validateProperty_record_agrees "user"
           [("id", Bob.str "id" []); ("username", Bob.str "username" [])]
           Examples.user_with_email Examples.user_pruned
           "username" (Bob.str "username" [])).
  - repeat constructor; simpl; intuition discriminate.
  - simpl. intuition discriminate.
  - reflexivity.
  - right. now left.
Defined.

(** X13.  [validateProperty] of an extension knows the own fields only.
    For a key the extension has through its base and not in its own
    table, [hasKey] answers true and [validateProperty] throws the
    [TypeError] of calling [validate] on [undefined]: the base is not
    asked. *)
Theorem validateProperty_extension_own_only name base own k v :
  Js.lookup k own = None ->
  hasKey base k = Return true ->
  hasKey (Bob.extend name base own) k = Return true
  /\ validateProperty (Bob.extend name base own) k v = Throw TypeError.
Proof.
  intros Hown Hbase. simpl. rewrite Hown. split; [| reflexivity].
  apply lookup_None in Hown.
  destruct (Js.includes_string (Js.keys own) k) eqn:Hinc; [| assumption].
  apply includes_string_In in Hinc. contradiction.
Qed.

Lemma validateProperty_extension_own_only_witness :
  hasKey Examples.extended "foo" = Return true
  /\ validateProperty Examples.extended "foo" Examples.one = Throw TypeError.
Proof.
  apply (validateProperty_extension_own_only "extended" Examples.base
           [("bar", Bob.num "bar" [])] "foo" Examples.one); reflexivity.
Defined.

(** ** Reading under another schema what one schema wrote *)

Section CrossSchema.

Local Abbreviation V :=
  (fun (validator : TypeImpl) (propValue : value) =>
     validate validator propValue []).

(** Ignored keys that are not keys of the table change nothing. *)
Lemma record_validate_ignored name (schema : list (string * TypeImpl)) u K1 K2 :
  (forall k, In k (Js.keys schema) -> Js.has K1 k = Js.has K2 k) ->
  record_validate V name schema u K1 = record_validate V name schema u K2.
Proof.
  intros Hsame. unfold record_validate.
  destruct (negb (String.eqb (Js.typeof u) "object")); [reflexivity |].
  generalize (VObj []) as acc. revert Hsame.
  induction schema as [| [key validator] rest IH]; simpl; intros Hsame acc;
    [reflexivity |].
  rewrite <- (Hsame key) by now left.
  destruct (Js.has K1 key).
  - apply IH. intros k Hk. apply Hsame. now right.
  - destruct (Js.get u key) as [x | e]; simpl; [| reflexivity].
    destruct (validate validator x []) as [v | e]; simpl; [| reflexivity].
    destruct (Js.assignable acc key); [| reflexivity].
    apply IH. intros k Hk. apply Hsame. now right.
Qed.

Lemma sub_collect v vs (s2 : list (string * TypeImpl)) :
  (forall k f, In (k, f) s2 ->
               exists x w, Js.get v k = Return x /\ V f x = Return w
                           /\ Js.lookup k vs = Some w /\ V f w = Return w) ->
  exists ws, record_collect V v [] s2 = Return ws
             /\ record_collect V (VObj vs) [] s2 = Return ws.
Proof.
  induction s2 as [| [key validator] rest IH]; simpl; intros Hall.
  - now exists [].
  - destruct (Hall key validator (or_introl eq_refl))
      as (x & w & Hget & Hw & Hlk & Hagain).
    destruct IH as (ws & H1 & H2).
    { intros k f Hin. apply Hall. now right. }
    exists ((key, w) :: ws).
    rewrite Hget, Hlk. simpl. rewrite Hw, Hagain. simpl.
    now rewrite H1, H2.
Qed.

End CrossSchema.

(** X14.  Pruning across schemas: what a record schema serialized can be
    deserialized under any record schema whose table is part of the
    first one's (with plain fields, and no field named [__proto__] in any
    table), and the result is what that smaller schema makes of the
    original value. *)
Theorem sub_record_deserialize codec n1 s1 n2 s2 v :
  lossless codec ->
  NoDup (Js.keys s1) -> NoDup (Js.keys s2) -> incl s2 s1 ->
  ~ In "__proto__" (Js.keys s1) ->
  forallb (fun kv => plain (snd kv)) s2 = true ->
  forallb (fun kv => ordinary_keys (snd kv)) s2 = true ->
  returns (validate (Bob.rec n1 s1) v []) = true ->
  (w <- serialize codec (Bob.rec n1 s1) v ;;
   deserialize codec (Bob.rec n2 s2) w)
  = validate (Bob.rec n2 s2) v []
  /\ returns (validate (Bob.rec n2 s2) v []) = true.
Proof.
  intros Hcodec Hnd1 Hnd2 Hincl Hp1 Hplain Hord Hacc. unfold Bob.rec in *.
  assert (Hp2 : ~ In "__proto__" (Js.keys s2)).
  { intros Hin. apply Hp1. unfold Js.keys in *.
    apply in_map_iff in Hin as (kv & Hk & Hin).
    apply in_map_iff. exists kv. split; [assumption | now apply Hincl]. }
  unfold serialize, deserialize.
  destruct (validate (RecordType n1 s1) v []) as [r | e] eqn:H1;
    [| discriminate]. cbn [bind]. rewrite Hcodec. cbn [bind].
  assert (H1' := H1).
  rewrite validate_record, record_validate_collect in H1' by assumption.
  rewrite !validate_record, !record_validate_collect by assumption.
  destruct (negb (String.eqb (Js.typeof v) "object")); [discriminate |].
  destruct (record_collect _ v [] s1) as [vs | e] eqn:Hvs;
    cbn [bind] in H1'; [| discriminate].
  injection H1' as <-. simpl.
  rewrite forallb_forall in Hplain. rewrite forallb_forall in Hord.
  destruct (sub_collect v vs s2) as (ws & Hv & Hr).
  { intros k f Hin.
    destruct (record_collect_In _ v [] s1 vs k f Hvs (Hincl _ Hin) eq_refl)
      as (x & w & Hget & Hw & Hinw).
    exists x, w. repeat split; auto.
    - apply In_lookup; [| assumption].
      exact (record_collect_NoDup _ v [] s1 vs Hnd1 Hvs).
    - exact (plain_idempotent f (Hplain (k, f) Hin) (Hord (k, f) Hin)
               x [] w Hw). }
  rewrite Hv, Hr. split; reflexivity.
Qed.

Lemma sub_record_deserialize_witness :
  (w <- serialize structural_codec
          (Bob.rec "someRec" [("prop", Bob.str "prop" []);
                              ("prop2", Bob.str "prop2" [])])
          (VObj [("prop", VStr "hello world");
                 ("prop2", VStr "this should disappear")]) ;;
   deserialize structural_codec
     (Bob.rec "someSubRec" [("prop", Bob.str "prop" [])]) w)
  = Return (VObj [("prop", VStr "hello world")]).
Proof.
  apply (sub_record_deserialize structural_codec
           "someRec" [("prop", Bob.str "prop" []);
                      ("prop2", Bob.str "prop2" [])]
           "someSubRec" [("prop", Bob.str "prop" [])]
           (VObj [("prop", VStr "hello world");
                  ("prop2", VStr "this should disappear")])).
  - intros v. reflexivity.
  - repeat constructor; simpl; intuition discriminate.
  - repeat constructor; simpl; intuition discriminate.
  - intros kv [<- | []]. now left.
  - simpl. intuition discriminate.
  - reflexivity.
  - reflexivity.
  - reflexivity.
Defined.

(** X15.  What an extension serialized, its base can deserialize: for a
    plain extension of a record that shadows none of the base fields, with
    no field named [__proto__] in any table, the base reads from the
    serialized value what it makes of the original value (the README's
    [base.deserialize(extended.serialize(...))]). *)
Theorem extension_base_deserialize codec name bname bschema own v :
  lossless codec ->
  plain (Bob.extend name (Bob.rec bname bschema) own) = true ->
  ordinary_keys (Bob.extend name (Bob.rec bname bschema) own) = true ->
  (forall k, In k (Js.keys own) -> ~ In k (Js.keys bschema)) ->
  returns (validate (Bob.extend name (Bob.rec bname bschema) own) v [])
  = true ->
  (w <- serialize codec (Bob.extend name (Bob.rec bname bschema) own) v ;;
   deserialize codec (Bob.rec bname bschema) w)
  = validate (Bob.rec bname bschema) v []
  /\ returns (validate (Bob.rec bname bschema) v []) = true.
Proof.
  intros Hcodec Hplain Hord Hdisjoint Hacc. unfold Bob.extend, Bob.rec in *.
  destruct (ordinary_extends _ _ _ Hord) as (Hordb & Hpo & _).
  destruct (ordinary_record _ _ Hordb) as [Hpb _].
  simpl in Hplain. apply andb_true_iff in Hplain as [Hplain _].
  apply andb_true_iff in Hplain as [Hbase Hd].
  apply distinct_NoDup in Hd.
  assert (Hbplain : plain (RecordType bname bschema) = true) by exact Hbase.
  unfold serialize, deserialize.
  destruct (validate (ExtendsType name (RecordType bname bschema) own) v [])
    as [r | e] eqn:H; [| discriminate]. cbn [bind].
  rewrite Hcodec. cbn [bind].
  rewrite validate_extends in H.
  destruct (validate (RecordType bname bschema) v (Js.keys own))
    as [br | e] eqn:Hb; cbn [bind] in H; [| discriminate].
  destruct (validate (RecordType name own) v []) as [sr | e] eqn:Hs;
    cbn [bind] in H; [| discriminate].
  injection H as <-.
  assert (Hb0 : validate (RecordType bname bschema) v [] = Return br).
  { rewrite <- Hb. rewrite !validate_record.
    apply record_validate_ignored. intros k Hk. simpl. symmetry.
    apply has_false. intros Hown. exact (Hdisjoint k Hown Hk). }
  rewrite Hb0.
  destruct (record_validate_object _ _ _ _ _ _ Hpb Hb) as [_ [bvs ->]].
  assert (Hs' := Hs).
  rewrite validate_record, record_validate_collect in Hs' by assumption.
  destruct (negb (String.eqb (Js.typeof v) "object")); [discriminate |].
  destruct (record_collect _ v [] own) as [svs | e] eqn:Hsvs;
    cbn [bind] in Hs'; [| discriminate].
  injection Hs' as <-.
  assert (Hsk : Js.keys svs = Js.keys own).
  { rewrite (record_collect_keys _ _ _ _ _ Hsvs).
    apply forallb_filter_id. apply forallb_forall. reflexivity. }
  destruct (validate_object_NoDup _ _ _ _ Hb0) as [Hbn Hbp].
  assert (Hsp : ~ In "__proto__" (Js.keys svs)) by now rewrite Hsk.
  assert (Hread : validate (RecordType bname bschema)
                    (Js.spread (VObj bvs) (VObj svs)) []
                  = validate (RecordType bname bschema) (VObj bvs) []).
  { rewrite !validate_record. rewrite spread_ordinary by assumption.
    apply record_validate_ext; [reflexivity | | reflexivity].
    intros k Hk _. simpl.
    rewrite lookup_define_all_other
      by (rewrite Hsk; intros Hown; exact (Hdisjoint k Hown Hk)).
    now rewrite lookup_define_all_empty. }
  rewrite Hread.
  rewrite (plain_idempotent _ Hbplain Hordb v [] (VObj bvs) Hb0).
  split; reflexivity.
Qed.

Lemma extension_base_deserialize_witness :
  (w <- serialize structural_codec Examples.extended Examples.foo_bar ;;
   deserialize structural_codec Examples.base w)
  = Return (VObj [("foo", Examples.one)]).
Proof.
  apply (extension_base_deserialize structural_codec "extended" "base"
           [("foo", Bob.num "foo" [])] [("bar", Bob.num "bar" [])]
           Examples.foo_bar).
  - intros v. reflexivity.
  - reflexivity.
  - reflexivity.
  - intros k [<- | []] [Heq | []]. discriminate.
  - reflexivity.
Defined.
